(** * hveto core: coincidence search, significance, winner selection, veto

    A shallow embedding of [hveto/core.py].  Times, SNRs, windows and
    livetimes are exact rationals ([Q]); the quantities that go through
    [math.log10], [scipy.special.gammainc] and [scipy.special.gammaln] are
    exact reals extended with the IEEE special values.  Rounding, underflow
    and signed zeros of IEEE doubles are outside this first model; module
    [F64] gives [find_coincidences] and [find_all_coincidences] a second
    time with the end points of their windows rounded as the code rounds
    them, and the general statements about these two functions are made
    there.  Python exceptions are values of an error monad.  The last
    part models the job schedule of [cli/weekly_hveto.py]. *)

From Stdlib Require Import String.
From Stdlib Require Import List Bool Arith Lia QArith Qabs Qround.
From Stdlib Require Import Permutation Sorted.
From Stdlib Require Import Reals Qreals Psatz.
Import ListNotations.

Set Implicit Arguments.

Close Scope Q_scope.
Close Scope R_scope.
Open Scope nat_scope.

(** ** Python exceptions as an error monad *)

Module Py.

Inductive exn : Type :=
| IndexError
| ValueError
| ZeroDivisionError
| KeyError
| AttributeError.

Inductive result (A : Type) : Type :=
| Ok (a : A)
| Raise (e : exn).

Arguments Ok {A} a.
Arguments Raise {A} e.

Definition bind {A B : Type} (m : result A) (k : A -> result B) : result B :=
  match m with
  | Ok a => k a
  | Raise e => Raise e
  end.


End Py.

Import Py.

Notation "x <- m ;; k" := (Py.bind m (fun x => k))
  (at level 61, m at next level, right associativity).

(** ** Rational comparisons as booleans *)

Definition Qltb (x y : Q) : bool := negb (Qle_bool y x).

(** ** Events and trigger tables *)

Definition ChannelId := string.
Bind Scope string_scope with ChannelId.

Record event : Type := Event {
  time : Q;
  frequency : Q;
  snr : Q;
  channel : ChannelId
}.

Definition table := list event.

(** [Table.sort('time')]: ascending in [time].  Written as an insertion
    sort; NumPy leaves the relative order of equal-time rows unspecified
    (here they end up in reverse input order), so nothing below is stated
    about it. *)

Fixpoint insert_by_time (e : event) (l : table) : table :=
  match l with
  | [] => [e]
  | x :: r => if Qltb (time e) (time x) then e :: x :: r
              else x :: insert_by_time e r
  end.

Fixpoint sort_by_time (l : table) : table :=
  match l with
  | [] => []
  | e :: r => insert_by_time e (sort_by_time r)
  end.

(** ** [bisect.bisect_left] and [bisect.bisect_right] *)

Section Bisect.

Variable b : list Q.

(** [while lo < hi: mid = (lo+hi)//2; if a[mid] < x: lo = mid+1 else: hi = mid] *)
Fixpoint bisect_left_loop (fuel : nat) (x : Q) (lo hi : nat) : nat :=
  match fuel with
  | O => lo
  | S fuel' =>
      if lo <? hi then
        let mid := (lo + hi) / 2 in
        if Qltb (nth mid b 0%Q) x
        then bisect_left_loop fuel' x (mid + 1) hi
        else bisect_left_loop fuel' x lo mid
      else lo
  end.

(** [while lo < hi: mid = (lo+hi)//2; if x < a[mid]: hi = mid else: lo = mid+1] *)
Fixpoint bisect_right_loop (fuel : nat) (x : Q) (lo hi : nat) : nat :=
  match fuel with
  | O => lo
  | S fuel' =>
      if lo <? hi then
        let mid := (lo + hi) / 2 in
        if Qltb x (nth mid b 0%Q)
        then bisect_right_loop fuel' x lo mid
        else bisect_right_loop fuel' x (mid + 1) hi
      else lo
  end.

Definition bisect_left (x : Q) : nat :=
  bisect_left_loop (length b) x 0 (length b).

Definition bisect_right (x : Q) : nat :=
  bisect_right_loop (length b) x 0 (length b).

End Bisect.

(** ** [find_coincidences] *)

Definition _is_coincident (b : list Q) (dx : Q) (t : Q) : bool :=
  let x := bisect_left b (t - dx) in
  let y := bisect_right b (t + dx) in
  negb (x =? y).

(** [out.nonzero()[0]]: the positions whose flag is set, ascending. *)
Fixpoint nonzero_from (i : nat) (out : list bool) : list nat :=
  match out with
  | [] => []
  | f :: r => if f then i :: nonzero_from (S i) r else nonzero_from (S i) r
  end.

Definition nonzero (out : list bool) : list nat := nonzero_from 0 out.

Definition find_coincidences (a b : list Q) (dt : Q) : list nat :=
  let dx := (dt / 2)%Q in
  nonzero (map (_is_coincident b dx) a).

(** ** Segments and segment lists (gwpy / ligo.segments)

    [Segment(a, b)] orders its end points.  [segmentlist.coalesce] sorts the
    list, merges every run of segments that overlap or touch, and drops the
    runs of zero length:
<<
    self.sort(); i = j = 0; n = len(self)
    while j < n:
        lo, hi = self[j]; j += 1
        while j < n and hi >= self[j][0]:
            hi = max(hi, self[j][1]); j += 1
        if lo != hi: self[i] = segment(lo, hi); i += 1
    del self[i:]
>> *)

Definition segment := (Q * Q)%type.

Definition Segment (a b : Q) : segment :=
  if Qle_bool a b then (a, b) else (b, a).

Definition segmentlist := list segment.

(** Tuple comparison [s < s']: lexicographic. *)
Definition seg_ltb (s s' : segment) : bool :=
  Qltb (fst s) (fst s') || (Qeq_bool (fst s) (fst s') && Qltb (snd s) (snd s')).

Fixpoint insert_seg (s : segment) (l : segmentlist) : segmentlist :=
  match l with
  | [] => [s]
  | x :: r => if seg_ltb s x then s :: x :: r else x :: insert_seg s r
  end.

Fixpoint sort_segs (l : segmentlist) : segmentlist :=
  match l with
  | [] => []
  | s :: r => insert_seg s (sort_segs r)
  end.

(** [max(hi, x)] of Python: [x] only when it is strictly larger. *)
Definition py_max (hi x : Q) : Q := if Qltb hi x then x else hi.

Definition emit (lo hi : Q) (l : segmentlist) : segmentlist :=
  if Qeq_bool lo hi then l else Segment lo hi :: l.

(** The run that started at [lo] currently ends at [hi]; [rest] is [self[j:]]. *)
Fixpoint coalesce_run (lo hi : Q) (rest : segmentlist) : segmentlist :=
  match rest with
  | [] => emit lo hi []
  | (a, b) :: r =>
      if Qle_bool a hi then coalesce_run lo (py_max hi b) r
      else emit lo hi (coalesce_run a b r)
  end.

Definition coalesce (l : segmentlist) : segmentlist :=
  match sort_segs l with
  | [] => []
  | (lo, hi) :: r => coalesce_run lo hi r
  end.

(** ** [veto] *)

(** The two-pointer loop.  The remaining events [times[i:]] are the list
    argument of the inner [scan]; the remaining segments [segmentlist[j+1:]]
    are [rest]; [(a, b)] is the current segment.  The result is [keep[i:]].
    When [segmentlist[j]] raises [IndexError] the loop breaks and every
    remaining flag keeps its initial value [True]. *)
Fixpoint veto_loop (rest : segmentlist) (a b : Q) {struct rest}
  : list Q -> list bool :=
  fix scan (times : list Q) : list bool :=
    match times with
    | [] => []
    | t :: ts =>
        if Qltb t a then true :: scan ts
        else if Qltb b t then
          match rest with
          | [] => map (fun _ => true) times
          | (a', b') :: rest' => veto_loop rest' a' b' times
          end
        else false :: scan ts
    end.

(** [table[mask]] *)
Fixpoint select (A : Type) (l : list A) (mask : list bool) : list A :=
  match l, mask with
  | x :: l', m :: mask' => if m then x :: select l' mask' else select l' mask'
  | _, _ => []
  end.

Definition veto (tbl : table) (segs : segmentlist)
  : result (table * table) :=
  let tbl := sort_by_time tbl in
  let times := map time tbl in
  let segs := coalesce segs in
  match segs with
  | [] => Raise IndexError
  | (a, b) :: rest =>
      let keep := veto_loop rest a b times in
      Ok (select tbl keep, select tbl (map negb keep))
  end.

(** ** [veto_all] *)

(** A [dict] of tables, in insertion order. *)
Definition tables := list (ChannelId * table).

(** [astropy.table.vstack]: the rows of the tables one after the other;
    an empty list of tables is refused with [ValueError]. *)
Definition vstack_tables (ts : list table) : result table :=
  match ts with
  | [] => Raise ValueError
  | _ => Ok (concat ts)
  end.




(** ** [find_all_coincidences] *)

(** A grid cell [(window, snr)]; two cells are the same dict key when both
    components are equal as numbers. *)
Definition cell := (Q * Q)%type.

Definition cell_eqb (p q : cell) : bool :=
  Qeq_bool (fst p) (fst q) && Qeq_bool (snd p) (snd q).

(** A [dict] with cells as keys, in insertion order. *)
Definition celldict (V : Type) := list (cell * V).

Fixpoint cell_get (V : Type) (d : celldict V) (p : cell) : option V :=
  match d with
  | [] => None
  | (q, v) :: r => if cell_eqb q p then Some v else cell_get r p
  end.

(** [d[p] = v]: an existing key keeps its place. *)
Fixpoint cell_set (V : Type) (d : celldict V) (p : cell) (v : V) : celldict V :=
  match d with
  | [] => [(p, v)]
  | (q, w) :: r => if cell_eqb q p then (q, v) :: r else (q, w) :: cell_set r p v
  end.

(** [dict((p, v) for p in ps)] *)
Definition cell_dict_of (V : Type) (ps : list cell) (v : V) : celldict V :=
  fold_left (fun d p => cell_set d p v) ps [].

(** A [set] of channel names, in the order of first insertion. *)
Definition chanset := list ChannelId.

Definition chanset_add (s : chanset) (c : ChannelId) : chanset :=
  if existsb (String.eqb c) s then s else s ++ [c].

(** A [dict] from channel names to counts, in insertion order. *)
Definition countdict := list (ChannelId * nat).

(** [try: d[c] += 1 / except KeyError: d[c] = 1] *)
Fixpoint count_incr (d : countdict) (c : ChannelId) : countdict :=
  match d with
  | [] => [(c, 1)]
  | (k, n) :: r => if String.eqb k c then (k, n + 1) :: r
                   else (k, n) :: count_incr r c
  end.

Fixpoint count_get (d : countdict) (c : ChannelId) : option nat :=
  match d with
  | [] => None
  | (k, n) :: r => if String.eqb k c then Some n else count_get r c
  end.

(** [sorted(windows, reverse=True)] and [sorted(snrs)] *)
Fixpoint insert_Q (x : Q) (l : list Q) : list Q :=
  match l with
  | [] => [x]
  | y :: r => if Qltb x y then x :: y :: r else y :: insert_Q x r
  end.

Fixpoint sorted (l : list Q) : list Q :=
  match l with
  | [] => []
  | x :: r => insert_Q x (sorted r)
  end.

Fixpoint insert_Q_desc (x : Q) (l : list Q) : list Q :=
  match l with
  | [] => [x]
  | y :: r => if Qltb y x then x :: y :: r else y :: insert_Q_desc x r
  end.

Fixpoint sorted_reverse (l : list Q) : list Q :=
  match l with
  | [] => []
  | x :: r => insert_Q_desc x (sorted_reverse r)
  end.

(** [itertools.product(windows, snrs)] *)
Definition product (ws ss : list Q) : list cell :=
  flat_map (fun w => map (fun s => (w, s)) ss) ws.

(** Truth value of a [filter] object: an iterator defines neither
    [__bool__] nor [__len__], so it is true whatever it will yield. *)
Definition filter_truth (A : Type) (yielded : list A) : bool := true.

Definition in_segment (s : segment) (t : Q) : bool :=
  Qle_bool (fst s) t && Qle_bool t (snd s).

Section OnePrimary.

Variable primary : ChannelId.
Variables windows snrs : list Q.
Variable segs : list segment.

(** The closure [add_if_coinc] over the local [channels]: [None] is the
    bare [return], [Some channels'] is [return 1] with the updated sets. *)
Definition add_if_coinc (channels : celldict chanset) (ev : event)
  : option (celldict chanset) :=
  if String.eqb (channel ev) primary then None
  else
    let in_seg := filter (fun s => in_segment s (time ev)) segs in
    if negb (filter_truth in_seg) then None
    else
      Some
        (fold_left
           (fun chs k =>
              fold_left
                (fun chs s =>
                   let key := (nth k windows 0%Q, s) in
                   match cell_get chs key with
                   | Some cs => cell_set chs key (chanset_add cs (channel ev))
                   | None => chs
                   end)
                (filter (fun s => Qle_bool s (snr ev)) snrs) chs)
           (seq 0 (length in_seg)) channels).

(** [while ...: if not add_if_coinc(triggers[j]): break], over the events
    met in scan order. *)
Fixpoint scan (evs : list event) (channels : celldict chanset)
  : celldict chanset :=
  match evs with
  | [] => channels
  | ev :: r =>
      match add_if_coinc channels ev with
      | None => channels
      | Some channels' => scan r channels'
      end
  end.

End OnePrimary.

(** [for p, cset in channels.items(): for c in cset: coincs[p][c] += 1] *)
Definition count_up (coincs : celldict countdict) (channels : celldict chanset)
  : celldict countdict :=
  fold_left
    (fun coincs pc =>
       let '(p, cset) := pc in
       fold_left
         (fun coincs c =>
            match cell_get coincs p with
            | Some d => cell_set coincs p (count_incr d c)
            | None => coincs
            end)
         cset coincs)
    channels coincs.

Definition find_all_coincidences (triggers : table) (primary : ChannelId)
  (snrs windows : list Q) : celldict countdict :=
  let triggers := sort_by_time triggers in
  let windows := sorted_reverse windows in
  let snrs := sorted snrs in
  let coincs := cell_dict_of (product windows snrs) ([] : countdict) in
  let ntrig := length triggers in
  fold_left
    (fun coincs i =>
       match nth_error triggers i with
       | None => coincs
       | Some x =>
           if negb (String.eqb (channel x) primary) then coincs
           else
             let t := time x in
             let channels := map (fun kv => (fst kv, ([] : chanset))) coincs in
             let segs := map (fun dt => Segment (t - dt / 2) (t + dt / 2))%Q windows in
             (* j = i-1, i-2, ..., 0 *)
             let channels :=
               scan primary windows snrs segs (rev (firstn i triggers)) channels in
             (* j = i+1, ..., ntrig-1 *)
             let channels :=
               scan primary windows snrs segs (skipn (S i) triggers) channels in
             count_up coincs channels
       end)
    (seq 0 ntrig) coincs.

(** The count the specification gives a cell and a channel: the primary
    events with at least one event of channel [c] inside the window centred
    on them and with [snr >= threshold]. *)
Definition has_neighbour (triggers : table) (c : ChannelId) (w s : Q)
  (x : event) : bool :=
  existsb
    (fun ev => String.eqb (channel ev) c
               && in_segment (Segment (time x - w / 2) (time x + w / 2))%Q (time ev)
               && Qle_bool s (snr ev))
    triggers.

Definition spec_count (triggers : table) (primary c : ChannelId) (w s : Q) : nat :=
  length (filter (fun x => String.eqb (channel x) primary
                           && has_neighbour triggers c w s x) triggers).

(** [coincs[(w, s)][c]], with 0 for a channel that has no entry. *)
Definition count_of (coincs : celldict countdict) (w s : Q) (c : ChannelId) : nat :=
  match cell_get coincs (w, s) with
  | Some d => match count_get d c with Some n => n | None => 0 end
  | None => 0
  end.

(** ** Floating-point values of the significance computation

    A finite value is an exact real; the three IEEE special values are kept
    because NumPy's division and SciPy's special functions return them
    instead of raising. *)

Inductive fl : Type :=
| Fin (x : R)
| PInf
| NInf
| NaN.

Definition Rsign (x : R) : comparison :=
  match total_order_T x 0 with
  | inleft (left _) => Lt
  | inleft (right _) => Eq
  | inright _ => Gt
  end.

Definition fl_sign (a : fl) : option comparison :=
  match a with
  | Fin x => Some (Rsign x)
  | PInf => Some Gt
  | NInf => Some Lt
  | NaN => None
  end.

Definition fl_inf (s : comparison) : fl :=
  match s with Gt => PInf | Lt => NInf | Eq => NaN end.

Definition sign_mul (s s' : comparison) : comparison :=
  match s, s' with
  | Eq, _ | _, Eq => Eq
  | Gt, Gt | Lt, Lt => Gt
  | _, _ => Lt
  end.

Definition fl_opp (a : fl) : fl :=
  match a with
  | Fin x => Fin (- x)
  | PInf => NInf
  | NInf => PInf
  | NaN => NaN
  end.

Definition fl_add (a b : fl) : fl :=
  match a, b with
  | NaN, _ | _, NaN => NaN
  | Fin x, Fin y => Fin (x + y)
  | PInf, NInf | NInf, PInf => NaN
  | PInf, _ | _, PInf => PInf
  | NInf, _ | _, NInf => NInf
  end.

Definition fl_mul (a b : fl) : fl :=
  match a, b with
  | Fin x, Fin y => Fin (x * y)
  | _, _ =>
      match fl_sign a, fl_sign b with
      | Some s, Some s' => fl_inf (sign_mul s s')
      | _, _ => NaN
      end
  end.

(** NumPy's true division: dividing by zero gives an infinity (or NaN for
    0/0), never an exception. *)
Definition fl_div (a b : fl) : fl :=
  match a, b with
  | NaN, _ | _, NaN => NaN
  | Fin x, Fin y =>
      match Rsign y with
      | Eq => fl_inf (Rsign x)
      | _ => Fin (x / y)
      end
  | Fin _, _ => Fin 0
  | _, Fin y =>
      match fl_sign a, Rsign y with
      | Some s, Eq => fl_inf s
      | Some s, s' => fl_inf (sign_mul s s')
      | None, _ => NaN
      end
  | _, _ => NaN
  end.

(** [a == 0] *)
Definition fl_is_zero (a : fl) : bool :=
  match a with
  | Fin x => match Rsign x with Eq => true | _ => false end
  | _ => false
  end.

(** [a > b]; false as soon as one side is NaN. *)
Definition fl_gtb (a b : fl) : bool :=
  match a, b with
  | NaN, _ | _, NaN => false
  | Fin x, Fin y => match Rsign (x - y) with Gt => true | _ => false end
  | PInf, PInf => false
  | PInf, _ => true
  | _, NInf => match a with NInf => false | _ => true end
  | _, _ => false
  end.

(** [math.log10]: a domain error for arguments that are not positive. *)
Definition log10 (a : fl) : result fl :=
  match a with
  | Fin x => match Rsign x with
             | Gt => Ok (Fin (ln x / ln 10))
             | _ => Raise ValueError
             end
  | PInf => Ok PInf
  | NInf => Raise ValueError
  | NaN => Ok NaN
  end.

(** [math.log] at a positive constant, and the two module constants. *)
Definition LOG_10 : fl := Fin (ln 10).
Definition LOG_EXP_1 : fl := Fin (ln (exp 1) / ln 10).

(** The first [n] terms of the exponential series at [x]. *)
Fixpoint exp_sum (n : nat) (x : R) : R :=
  match n with
  | O => 0%R
  | S m => (exp_sum m x + x ^ m / INR (fact m))%R
  end.

(** [scipy.special.gammainc(n, x)], the regularized lower incomplete gamma
    function, at an integer first argument: for [n >= 1] and [x > 0] it is
    the Poisson upper tail [1 - exp(-x) * sum_(k<n) x^k / k!].  At the edges
    SciPy returns NaN for [x < 0], 1 for [n = 0 < x], NaN for [n = 0 = x],
    0 for [x = 0 < n] and 1 for [x = +inf]. *)
Definition gammainc (n : nat) (mu : fl) : fl :=
  match mu with
  | NaN => NaN
  | NInf => NaN
  | PInf => Fin 1
  | Fin x =>
      match Rsign x, n with
      | Lt, _ => NaN
      | Gt, O => Fin 1
      | Eq, O => NaN
      | Eq, S _ => Fin 0
      | Gt, S _ => Fin (1 - exp (- x) * exp_sum n x)
      end
  end.

(** [scipy.special.gammaln(k)] at a non-negative integer:
    [ln ((k-1)!)], and [+inf] at the pole 0. *)
Definition gammaln (k : nat) : fl :=
  match k with
  | O => PInf
  | S m => Fin (ln (INR (fact m)))
  end.

(** ** [significance] *)

Definition significance (n : nat) (mu : fl) : result fl :=
  let g := gammainc n mu in
  if fl_is_zero g then
    l <- log10 mu ;;
    Ok (fl_add (fl_add (fl_mul (Fin (- INR n)) l) (fl_mul mu LOG_EXP_1))
               (fl_div (gammaln (n + 1)) LOG_10))
  else
    l <- log10 g ;;
    Ok (fl_opp l).

(** ** [coinc_significance] *)

(** Python's [/] on Python numbers. *)
Definition py_truediv (x y : Q) : result Q :=
  if Qeq_bool y 0 then Raise ZeroDivisionError else Ok (x / y)%Q.

(** [try: m except ZeroDivisionError: d] *)
Definition except_ZeroDivisionError (A : Type) (m : result A) (d : A) : result A :=
  match m with
  | Raise ZeroDivisionError => Ok d
  | _ => m
  end.

Definition size (A : Type) (l : list A) : Q := inject_Z (Z.of_nat (length l)).

Definition coinc_significance (a b : list Q) (dt livetime : Q)
  : result (list nat * fl) :=
  let coincs := find_coincidences a b dt in
  let n := length coincs in
  if n =? 0 then Ok (coincs, Fin 0)
  else
    prob <- except_ZeroDivisionError (py_truediv (size a * dt) livetime) 0%Q ;;
    let mu := (prob * size b)%Q in
    sig <- significance n (Fin (Q2R mu)) ;;
    Ok (coincs, sig).

(** ** [HvetoWinner] *)

(** A slot declared in [__slots__]: [None] while nothing was assigned to it
    (reading it raises [AttributeError]), [Some v] afterwards.  A value [v]
    is itself optional where the attribute can hold Python's [None]. *)
Definition slot (A : Type) := option A.

Definition getattr (A : Type) (s : slot A) : result A :=
  match s with
  | Some v => Ok v
  | None => Raise AttributeError
  end.

Record HvetoWinner : Type := mkWinner {
  name : slot (option string);
  w_significance : slot (option fl);
  w_snr : slot (option Q);
  window : slot (option Q);
  segments : slot (option segmentlist);
  events : slot (option table);
  ncoinc : slot nat;
  mu : slot (option fl);
  n_vetoed : slot nat
}.

(** [__init__]: seven assignments; [ncoinc] is a parameter that no
    statement uses. *)
Definition HvetoWinner_init (name : option string) (significance : option fl)
  (snr window : option Q) (segments : option segmentlist)
  (events : option table) (ncoinc : nat) (mu : option fl) : HvetoWinner :=
  {| name := Some name;
     w_significance := Some significance;
     w_snr := Some snr;
     window := Some window;
     segments := Some segments;
     events := Some events;
     ncoinc := None;
     mu := Some mu;
     n_vetoed := None |}.

(** ** [find_max_significance] *)

Definition sigdict := list (ChannelId * fl).

Fixpoint sig_get (d : sigdict) (c : ChannelId) : result fl :=
  match d with
  | [] => Raise KeyError
  | (k, v) :: r => if String.eqb k c then Ok v else sig_get r c
  end.

Fixpoint sig_set (d : sigdict) (c : ChannelId) (v : fl) : sigdict :=
  match d with
  | [] => [(c, v)]
  | (k, w) :: r => if String.eqb k c then (k, v) :: r else (k, w) :: sig_set r c v
  end.

(** [auxiliary[chan]] *)
Fixpoint tables_get (d : tables) (c : ChannelId) : result table :=
  match d with
  | [] => Raise KeyError
  | (k, v) :: r => if String.eqb k c then Ok v else tables_get r c
  end.

(** [dict((k, v) for ...)] over channel names: a repeated key keeps its
    first place. *)
Definition sigs_of (cs : list ChannelId) (v : fl) : sigdict :=
  fold_left (fun d c => sig_set d c v) cs [].

Section FindMax.

Variable primary : table.
Variable auxiliary : tables.
Variable livetime : Q.

(** The body of [for chan in cdict]; [thr] is the cell's [snr]. *)
Definition score (p : cell) (chan : ChannelId) (n : nat)
  (st : HvetoWinner * sigdict) : result (HvetoWinner * sigdict) :=
  let '(winner, sigs) := st in
  let '(dt, thr) := p in
  aux <- tables_get auxiliary chan ;;
  let loud := filter (fun e => Qle_bool thr (snr e)) aux in
  let mu := fl_div (Fin (Q2R (size primary * size loud * dt)))
                   (Fin (Q2R livetime)) in
  sig <- significance n mu ;;
  best <- sig_get sigs chan ;;
  let sigs := if fl_gtb sig best then sig_set sigs chan sig else sigs in
  cur <- getattr (w_significance winner) ;;
  let winner :=
    if match cur with Some c => fl_gtb sig c | None => false end
    then {| name := Some (Some chan);
            w_significance := Some (Some sig);
            w_snr := Some (Some thr);
            window := Some (Some dt);
            segments := segments winner;
            events := events winner;
            ncoinc := ncoinc winner;
            mu := Some (Some mu);
            n_vetoed := n_vetoed winner |}
    else winner in
  Ok (winner, sigs).

Fixpoint for_chan (p : cell) (cdict : countdict)
  (st : HvetoWinner * sigdict) : result (HvetoWinner * sigdict) :=
  match cdict with
  | [] => Ok st
  | (chan, n) :: r => st' <- score p chan n st ;; for_chan p r st'
  end.

Fixpoint for_cell (coincs : celldict countdict)
  (st : HvetoWinner * sigdict) : result (HvetoWinner * sigdict) :=
  match coincs with
  | [] => Ok st
  | (p, cdict) :: r => st' <- for_chan p cdict st ;; for_cell r st'
  end.

Definition find_max_significance (channel : ChannelId) (snrs windows : list Q)
  : result (HvetoWinner * sigdict) :=
  rec <- vstack_tables (primary :: map snd auxiliary) ;;
  let coincs := find_all_coincidences rec channel snrs windows in
  let winner := HvetoWinner_init (Some "unknown"%string) (Some (Fin (-1)))
                                 None None None None 0 None in
  let sigs := sigs_of (map fst auxiliary) (Fin 0) in
  for_cell coincs (winner, sigs).

End FindMax.

(** ** [HvetoWinner.get_segments] *)

(** [TypeError] is raised here only (arithmetic on [None]), so it is added
    on top of the exceptions of the functions above. *)
Inductive pyerror : Type :=
| Builtin (e : exn)
| TypeError.

Inductive outcome (A : Type) : Type :=
| Return (a : A)
| Throw (e : pyerror).

Arguments Return {A} a.
Arguments Throw {A} e.

(** [SegmentList([Segment(t - self.window / 2., t + self.window / 2.)
    for t in times])]: [self.window] is read once per element, so an empty
    [times] never touches it. *)
Definition get_segments (self : HvetoWinner) (times : list Q)
  : outcome segmentlist :=
  match times with
  | [] => Return []
  | _ :: _ =>
      match window self with
      | None => Throw (Builtin AttributeError)
      | Some None => Throw TypeError
      | Some (Some w) =>
          Return (map (fun t => Segment (t - w / 2) (t + w / 2))%Q times)
      end
  end.

(** ** The schedule of [weekly_hveto.main]

    [--start] and [--end] go through [to_day], so [start_dt] and [end_dt]
    are midnights; a date is its day number, a [timedelta] a number of
    days, and [to_day] of a midnight is that day.  [int(d / stride)] on
    two [int]s is the quotient truncated towards zero (the day counts of
    [datetime] are far below the precision of a float), and raises
    [ZeroDivisionError] for a zero stride.  A job is what the loop passes
    on for it: the two numbers of [job_name] and [out_of], and the
    [gpsstart] and [gpsend] days ([end_day] is [gpsend] again).  The loop
    takes fuel; [None] is a loop that has not ended when the fuel has run
    out.  The result is [njobs], as the closing log line reports it, and
    the jobs in the order of the DAG file.  Before any of this [main]
    checks [args.config_file], which is [None] when [-c] is not given and
    none of the default paths exists, and raises [ValueError] then.
    Parsing the command line and writing the files are not modelled. *)
Record job : Type := Job {
  name_current_job : Z;
  name_njobs : Z;
  gpsstart : Z;
  gpsend : Z
}.

Fixpoint main_loop (fuel : nat) (start_dt next_dt duration_dt stride_dt : Z)
  (current_job njobs : Z) : option (list job) :=
  match fuel with
  | O => None
  | S fuel' =>
      if (start_dt <=? next_dt)%Z then
        let begin_day := (next_dt - duration_dt)%Z in
        let next_day := next_dt in
        option_map (cons (Job current_job njobs begin_day next_day))
                   (main_loop fuel' start_dt (next_dt - stride_dt)%Z
                              duration_dt stride_dt (current_job + 1)%Z njobs)
      else Some []
  end.

Definition main (fuel : nat) (config : option string)
  (start_day end_day duration stride : Z)
  : result (option (Z * list job)) :=
  _ <- (match config with None => Raise ValueError | Some _ => Ok tt end) ;;
  let start_dt := start_day in
  let end_dt := end_day in
  let next_dt := end_dt in
  njobs <- (if (stride =? 0)%Z then Raise ZeroDivisionError
            else Ok (Z.quot (end_dt - start_dt) stride)) ;;
  Ok (option_map (fun jobs => (njobs, jobs))
                 (main_loop fuel start_dt next_dt duration stride 1%Z njobs)).

(** ** The windows in double precision

    The definitions above compute a window [t - dt/2 .. t + dt/2] exactly.
    The code computes it in doubles: [dt / 2.] is a finite double, and
    [t - dx], [t + dx] are the exact difference and sum rounded to the
    nearest double, an infinity on overflow (no NaN can arise from finite
    operands).  Near [1e16] the doubles are 2 apart, so which events fall
    inside a window is decided by the rounded end points.  The definitions
    of this module are those of [find_coincidences] and
    [find_all_coincidences] again with the three operations as parameters:
    [rnd] rounds an exact result, [half] is [dt / 2.], and [sort_time] is
    [Table.sort('time')], whose order among rows of equal time is left to
    the sorting routine.  What a statement needs of them is among its
    hypotheses. *)
Module F64.

Inductive xfloat : Type :=
| Finite (q : Q)
| PosInf
| NegInf.

(** [y < x], [x < y], [y <= x], [x <= y] and [x <= x'] for a number [y]
    and results [x], [x']. *)
Definition Qx_ltb (y : Q) (x : xfloat) : bool :=
  match x with Finite q => Qltb y q | PosInf => true | NegInf => false end.

Definition xQ_ltb (x : xfloat) (y : Q) : bool :=
  match x with Finite q => Qltb q y | PosInf => false | NegInf => true end.

Definition Qx_leb (y : Q) (x : xfloat) : bool :=
  match x with Finite q => Qle_bool y q | PosInf => true | NegInf => false end.

Definition xQ_leb (x : xfloat) (y : Q) : bool :=
  match x with Finite q => Qle_bool q y | PosInf => false | NegInf => true end.

Definition x_leb (x x' : xfloat) : bool :=
  match x, x' with
  | NegInf, _ => true
  | _, PosInf => true
  | Finite q, Finite q' => Qle_bool q q'
  | _, _ => false
  end.

Section Bisect.

Variable b : list Q.

Fixpoint bisect_left_loop (fuel : nat) (x : xfloat) (lo hi : nat) : nat :=
  match fuel with
  | O => lo
  | S fuel' =>
      if lo <? hi then
        let mid := (lo + hi) / 2 in
        if Qx_ltb (nth mid b 0%Q) x
        then bisect_left_loop fuel' x (mid + 1) hi
        else bisect_left_loop fuel' x lo mid
      else lo
  end.

Fixpoint bisect_right_loop (fuel : nat) (x : xfloat) (lo hi : nat) : nat :=
  match fuel with
  | O => lo
  | S fuel' =>
      if lo <? hi then
        let mid := (lo + hi) / 2 in
        if xQ_ltb x (nth mid b 0%Q)
        then bisect_right_loop fuel' x lo mid
        else bisect_right_loop fuel' x (mid + 1) hi
      else lo
  end.

Definition bisect_left (x : xfloat) : nat :=
  bisect_left_loop (length b) x 0 (length b).

Definition bisect_right (x : xfloat) : nat :=
  bisect_right_loop (length b) x 0 (length b).

End Bisect.

(** [Segment(a, b)] and [s[0] <= t <= s[1]] on computed end points. *)
Definition xsegment := (xfloat * xfloat)%type.

Definition Segment (a b : xfloat) : xsegment :=
  if x_leb a b then (a, b) else (b, a).

Definition in_segment (s : xsegment) (t : Q) : bool :=
  xQ_leb (fst s) t && Qx_leb t (snd s).

Section Rounded.

Variable rnd : Q -> xfloat.
Variable half : Q -> Q.
Variable sort_time : table -> table.

Definition _is_coincident (b : list Q) (dx : Q) (t : Q) : bool :=
  let x := bisect_left b (rnd (t - dx)) in
  let y := bisect_right b (rnd (t + dx)) in
  negb (x =? y).

Definition find_coincidences (a b : list Q) (dt : Q) : list nat :=
  let dx := half dt in
  nonzero (map (_is_coincident b dx) a).

(** [Segment(t - dt / 2., t + dt / 2.)] *)
Definition around (t dt : Q) : xsegment :=
  Segment (rnd (t - half dt)) (rnd (t + half dt)).

Section OnePrimary.

Variable primary : ChannelId.
Variables windows snrs : list Q.
Variable segs : list xsegment.

Definition add_if_coinc (channels : celldict chanset) (ev : event)
  : option (celldict chanset) :=
  if String.eqb (channel ev) primary then None
  else
    let in_seg := filter (fun s => in_segment s (time ev)) segs in
    if negb (filter_truth in_seg) then None
    else
      Some
        (fold_left
           (fun chs k =>
              fold_left
                (fun chs s =>
                   let key := (nth k windows 0%Q, s) in
                   match cell_get chs key with
                   | Some cs => cell_set chs key (chanset_add cs (channel ev))
                   | None => chs
                   end)
                (filter (fun s => Qle_bool s (snr ev)) snrs) chs)
           (seq 0 (length in_seg)) channels).

Fixpoint scan (evs : list event) (channels : celldict chanset)
  : celldict chanset :=
  match evs with
  | [] => channels
  | ev :: r =>
      match add_if_coinc channels ev with
      | None => channels
      | Some channels' => scan r channels'
      end
  end.

End OnePrimary.

Definition find_all_coincidences (triggers : table) (primary : ChannelId)
  (snrs windows : list Q) : celldict countdict :=
  let triggers := sort_time triggers in
  let windows := sorted_reverse windows in
  let snrs := sorted snrs in
  let coincs := cell_dict_of (product windows snrs) ([] : countdict) in
  let ntrig := length triggers in
  fold_left
    (fun coincs i =>
       match nth_error triggers i with
       | None => coincs
       | Some x =>
           if negb (String.eqb (channel x) primary) then coincs
           else
             let t := time x in
             let channels := map (fun kv => (fst kv, ([] : chanset))) coincs in
             let segs := map (around t) windows in
             let channels :=
               scan primary windows snrs segs (rev (firstn i triggers)) channels in
             let channels :=
               scan primary windows snrs segs (skipn (S i) triggers) channels in
             count_up coincs channels
       end)
    (seq 0 ntrig) coincs.

(** The primary events with at least one event of channel [c] inside the
    computed window and with [snr >= threshold]. *)
Definition has_neighbour (triggers : table) (c : ChannelId) (w s : Q)
  (x : event) : bool :=
  existsb
    (fun ev => String.eqb (channel ev) c
               && in_segment (around (time x) w) (time ev)
               && Qle_bool s (snr ev))
    triggers.

Definition spec_count (triggers : table) (primary c : ChannelId) (w s : Q) : nat :=
  length (filter (fun x => String.eqb (channel x) primary
                           && has_neighbour triggers c w s x) triggers).

End Rounded.

End F64.

(** * Vocabulary of the specification *)

Definition ascending (b : list Q) : Prop :=
  forall i j, i <= j -> j < length b -> (nth i b 0 <= nth j b 0)%Q.

Definition time_sorted : table -> Prop :=
  StronglySorted (fun x y => (time x <= time y)%Q).

Definition wf_seg (s : segment) : Prop := (fst s <= snd s)%Q.

(** The shape [coalesce] produces: every segment has positive length and
    ends strictly before every later one starts. *)
Fixpoint chain (l : segmentlist) : Prop :=
  match l with
  | [] => True
  | s :: r => (fst s < snd s)%Q /\ Forall (fun s' => (snd s < fst s')%Q) r /\ chain r
  end.

Definition covered (segs : segmentlist) (t : Q) : bool :=
  existsb (fun s => in_segment s t) segs.

Definition start_sorted : segmentlist -> Prop :=
  StronglySorted (fun s s' => (fst s <= fst s')%Q).

(** The events [veto] keeps and removes, as filters of the sorted table. *)
Definition kept_of (segs : segmentlist) (tbl : table) : table :=
  filter (fun e => negb (covered (coalesce segs) (time e))) (sort_by_time tbl).

Definition removed_of (segs : segmentlist) (tbl : table) : table :=
  filter (fun e => covered (coalesce segs) (time e)) (sort_by_time tbl).

Definition ev0 (t : Q) : event := Event t 0 0 "X"%string.



Definition prim (t : Q) : event := Event t 100 8 "P"%string.
Definition auxA (t s : Q) : event := Event t 100 s "A"%string.

Definition no_scores (coincs : celldict countdict) : Prop :=
  Forall (fun kv => snd kv = []) coincs.

(** The winner the search starts from. *)
Definition sentinel : HvetoWinner :=
  HvetoWinner_init (Some "unknown"%string) (Some (Fin (-1)))
                   None None None None 0 None.

(** [gammainc(n, x)] for [n >= 1] and [x > 0]. *)
Definition poisson_tail (n : nat) (x : R) : R :=
  (1 - exp (- x) * exp_sum n x)%R.

(** No two keys name the same cell. *)
Fixpoint uniq_keys (ks : list cell) : Prop :=
  match ks with
  | [] => True
  | k :: r => (forall k', In k' r -> cell_eqb k k' = false) /\ uniq_keys r
  end.

Definition cnt (d : countdict) (c : ChannelId) : nat :=
  match count_get d c with Some n => n | None => 0 end.

(** One execution of [coincs[p][c] += 1]. *)
Definition bump (coincs : celldict countdict) (p : cell) (c : ChannelId)
  : celldict countdict :=
  match cell_get coincs p with
  | Some d => cell_set coincs p (count_incr d c)
  | None => coincs
  end.

(** How often channel [c] is listed under a key naming cell [p]. *)
Definition hits (channels : celldict chanset) (p : cell) (c : ChannelId) : nat :=
  list_sum (map (fun pc => if cell_eqb (fst pc) p
                           then count_occ string_dec (snd pc) c else 0) channels).

(** Is channel [c] listed under some key naming cell [p]? *)
Definition chan_member (channels : celldict chanset) (p : cell) (c : ChannelId)
  : bool :=
  existsb (fun pc => cell_eqb (fst pc) p && existsb (String.eqb c) (snd pc))
          channels.

(** A best significance that can be stored: not NaN and not negative. *)
Definition fl_ge0 (a : fl) : Prop :=
  match a with
  | Fin x => (0 <= x)%R
  | PInf => True
  | _ => False
  end.

(** The order of the values that are not NaN. *)
Definition fl_le (a b : fl) : Prop :=
  match a, b with
  | NaN, _ | _, NaN => False
  | NInf, _ => True
  | _, PInf => True
  | Fin x, Fin y => (x <= y)%R
  | _, _ => False
  end.

(** What holds of the running winner and the running bests at every point
    of the double loop. *)
Definition best_inv (auxiliary : tables) (K : list ChannelId)
  (st : HvetoWinner * sigdict) : Prop :=
  let (winner, sigs) := st in
  map fst sigs = K /\
  Forall (fun kv => fl_ge0 (snd kv)) sigs /\
  exists v,
    w_significance winner = Some (Some v) /\
    fl_le (Fin (-1)) v /\
    (forall c b, In (c, b) sigs -> b = Fin 0 \/ fl_le b v) /\
    (winner = sentinel \/
     (fl_gtb v (Fin (-1)) = true /\
      exists chan thr dt m,
        name winner = Some (Some chan) /\ In chan (map fst auxiliary) /\
        w_snr winner = Some (Some thr) /\ window winner = Some (Some dt) /\
        mu winner = Some (Some m) /\
        exists n, significance n m = Ok v)).

(** The events a scan meets before it stops: those in front of the first
    primary-channel event. *)
Fixpoint until_primary (primary : ChannelId) (evs : list event) : list event :=
  match evs with
  | [] => []
  | ev :: r => if String.eqb (channel ev) primary then []
               else ev :: until_primary primary r
  end.

(** The events the two scans from position [i] of [T] meet: back to the
    previous primary event and forward to the next one. *)
Definition reach (primary : ChannelId) (T : table) (i : nat) : list event :=
  until_primary primary (rev (firstn i T))
  ++ until_primary primary (skipn (S i) T).

(** Channel [c] is recorded under the key that stands for cell [q]. *)
Definition recorded (chs : celldict chanset) (q : cell) (c : ChannelId) : Prop :=
  exists cs, cell_get chs q = Some cs /\ In c cs.

(** One [channels[key].add(c)]. *)
Definition record (chs : celldict chanset) (key : cell) (c : ChannelId)
  : celldict chanset :=
  match cell_get chs key with
  | Some cs => cell_set chs key (chanset_add cs c)
  | None => chs
  end.

(** Strictly increasing times. *)
Definition strictly_sorted : table -> Prop :=
  StronglySorted (fun x y => (time x < time y)%Q).

(** What the statements on computed windows ask of the arithmetic:
    rounding keeps the order, and so does halving, which takes 0 to a
    number that is not negative.  Both hold of IEEE arithmetic.  Of the
    sort they ask that it returns the rows it was given, by ascending
    time. *)
Definition keeps_order (rnd : Q -> F64.xfloat) : Prop :=
  forall x y, (x <= y)%Q -> F64.x_leb (rnd x) (rnd y) = true.

Definition halves (half : Q -> Q) : Prop :=
  (0 <= half 0)%Q /\ forall d d', (d <= d')%Q -> (half d <= half d')%Q.

Definition sorts_by_time (sort_time : table -> table) : Prop :=
  forall l, Permutation (sort_time l) l /\ time_sorted (sort_time l).



(** A coarse arithmetic to try the statements on: every result is rounded
    to the nearest integer, a half upwards; halving is exact. *)
Definition round_int (q : Q) : F64.xfloat :=
  F64.Finite (inject_Z (Qfloor (q + (1 # 2)))).

Definition exact_half (dt : Q) : Q := (dt / 2)%Q.

Section ComputedWindowVocabulary.

Variable rnd : Q -> F64.xfloat.
Variable half : Q -> Q.

(** The primary events that have a neighbour of auxiliary channel [c]
    inside the computed window [w] with snr at least [s]. *)
Definition coincident_primary (T : table) (primary c : ChannelId) (w s : Q)
  (x : event) : bool :=
  String.eqb (channel x) primary
  && (negb (String.eqb c primary) && F64.has_neighbour rnd half T c w s x).

(** Every channel recorded under a cell is the channel of an auxiliary
    event of the table [T] that lies inside that cell's computed window
    around [t] and reaches that cell's threshold. *)
Definition sound (T : table) (primary : ChannelId) (t : Q)
  (channels : celldict chanset) : Prop :=
  forall p cset c,
    In (p, cset) channels -> In c cset ->
    exists ev, In ev T /\ channel ev = c /\ String.eqb c primary = false /\
               F64.in_segment (F64.around rnd half t (fst p)) (time ev) = true /\
               Qle_bool (snd p) (snr ev) = true.

Definition scan_inv (T : table) (primary : ChannelId) (t : Q) (K : list cell)
  (channels : celldict chanset) : Prop :=
  map fst channels = K /\
  Forall (fun pc => NoDup (snd pc)) channels /\
  sound T primary t channels.

(** Does the primary event at position [i] get counted for channel [c] in
    cell [(w, s)]?  It does when an event of that channel, inside the
    computed window and at or above the threshold, lies between it and the
    nearest primary event on either side. *)
Definition seen_from (T : table) (primary c : ChannelId) (w s : Q) (i : nat) : bool :=
  match nth_error T i with
  | Some x => String.eqb (channel x) primary
              && F64.has_neighbour rnd half (reach primary T i) c w s x
  | None => false
  end.

End ComputedWindowVocabulary.

(** * Properties *)

(** ** Comparisons *)

Lemma Qltb_lt (x y : Q) : Qltb x y = true <-> (x < y)%Q.
Proof.
  unfold Qltb. rewrite negb_true_iff.
  split; intro H.
  - apply Qnot_le_lt. intro L. apply Qle_bool_iff in L. congruence.
  - destruct (Qle_bool y x) eqn:E; [|reflexivity].
    apply Qle_bool_iff in E. exfalso. apply (Qlt_not_le _ _ H E).
Qed.

Lemma Qltb_ge (x y : Q) : Qltb x y = false <-> (y <= x)%Q.
Proof.
  unfold Qltb. rewrite negb_false_iff. apply Qle_bool_iff.
Qed.

Lemma Qle_bool_gt (x y : Q) : Qle_bool x y = false <-> (y < x)%Q.
Proof.
  rewrite <- Qltb_lt. unfold Qltb.
  destruct (Qle_bool x y); simpl; intuition congruence.
Qed.

Lemma Qeq_bool_refl (x : Q) : Qeq_bool x x = true.
Proof. apply Qeq_bool_iff. reflexivity. Qed.

Ltac qbool :=
  repeat match goal with
    | H : Qltb _ _ = true |- _ => apply Qltb_lt in H
    | H : Qltb _ _ = false |- _ => apply Qltb_ge in H
    | H : Qle_bool _ _ = true |- _ => apply Qle_bool_iff in H
    | H : Qle_bool _ _ = false |- _ => apply Qle_bool_gt in H
    | H : Qeq_bool _ _ = true |- _ => apply Qeq_bool_iff in H
    | H : Qeq_bool _ _ = false |- _ => apply Qeq_bool_neq in H
    end.

(** ** Binary search on an ascending list *)

Section BisectSpec.

Opaque Nat.div.

Variable b : list Q.
Hypothesis Hasc : ascending b.

Lemma bisect_left_loop_spec (x : Q) (fuel lo hi : nat) :
  lo <= hi -> hi <= length b -> hi - lo <= fuel ->
  (forall i, i < lo -> (nth i b 0 < x)%Q) ->
  (forall i, hi <= i -> i < length b -> (x <= nth i b 0)%Q) ->
  let r := bisect_left_loop b fuel x lo hi in
  r <= length b /\
  (forall i, i < r -> (nth i b 0 < x)%Q) /\
  (forall i, r <= i -> i < length b -> (x <= nth i b 0)%Q).
Proof.
  revert lo hi. induction fuel as [|fuel IH]; intros lo hi Hlh Hhi Hf Hlo Hup; simpl.
  - assert (lo = hi) by lia. subst. repeat split; auto.
  - destruct (lo <? hi) eqn:E.
    + apply Nat.ltb_lt in E.
      assert (Hmid : lo <= (lo + hi) / 2 < hi).
      { split.
        - apply Nat.div_le_lower_bound; lia.
        - apply Nat.Div0.div_lt_upper_bound; lia. }
      destruct (Qltb (nth ((lo + hi) / 2) b 0%Q) x) eqn:C; qbool.
      * apply IH; try lia; auto.
        intros i Hi.
        apply Qle_lt_trans with (nth ((lo + hi) / 2) b 0%Q); [|exact C].
        apply Hasc; lia.
      * apply IH; try lia; auto.
        intros i Hi Hl.
        apply Qle_trans with (nth ((lo + hi) / 2) b 0%Q); [exact C|].
        apply Hasc; lia.
    + apply Nat.ltb_ge in E. assert (lo = hi) by lia. subst.
      repeat split; auto.
Qed.

Lemma bisect_right_loop_spec (x : Q) (fuel lo hi : nat) :
  lo <= hi -> hi <= length b -> hi - lo <= fuel ->
  (forall i, i < lo -> (nth i b 0 <= x)%Q) ->
  (forall i, hi <= i -> i < length b -> (x < nth i b 0)%Q) ->
  let r := bisect_right_loop b fuel x lo hi in
  r <= length b /\
  (forall i, i < r -> (nth i b 0 <= x)%Q) /\
  (forall i, r <= i -> i < length b -> (x < nth i b 0)%Q).
Proof.
  revert lo hi. induction fuel as [|fuel IH]; intros lo hi Hlh Hhi Hf Hlo Hup; simpl.
  - assert (lo = hi) by lia. subst. repeat split; auto.
  - destruct (lo <? hi) eqn:E.
    + apply Nat.ltb_lt in E.
      assert (Hmid : lo <= (lo + hi) / 2 < hi).
      { split.
        - apply Nat.div_le_lower_bound; lia.
        - apply Nat.Div0.div_lt_upper_bound; lia. }
      destruct (Qltb x (nth ((lo + hi) / 2) b 0%Q)) eqn:C; qbool.
      * apply IH; try lia; auto.
        intros i Hi Hl.
        apply Qlt_le_trans with (nth ((lo + hi) / 2) b 0%Q); [exact C|].
        apply Hasc; lia.
      * apply IH; try lia; auto.
        intros i Hi.
        apply Qle_trans with (nth ((lo + hi) / 2) b 0%Q); [|exact C].
        apply Hasc; lia.
    + apply Nat.ltb_ge in E. assert (lo = hi) by lia. subst.
      repeat split; auto.
Qed.

(** [bisect_left] is the first position whose element is [>= x]. *)
Lemma bisect_left_spec (x : Q) :
  bisect_left b x <= length b /\
  (forall i, i < bisect_left b x -> (nth i b 0 < x)%Q) /\
  (forall i, bisect_left b x <= i -> i < length b -> (x <= nth i b 0)%Q).
Proof.
  unfold bisect_left. apply bisect_left_loop_spec; try lia.
Qed.

(** [bisect_right] is the first position whose element is [> x]. *)
Lemma bisect_right_spec (x : Q) :
  bisect_right b x <= length b /\
  (forall i, i < bisect_right b x -> (nth i b 0 <= x)%Q) /\
  (forall i, bisect_right b x <= i -> i < length b -> (x < nth i b 0)%Q).
Proof.
  unfold bisect_right. apply bisect_right_loop_spec; try lia.
Qed.

(** With a non-negative half-width the two positions differ exactly when
    some element of [b] lies in the closed window [[t - dx, t + dx]]. *)
Lemma _is_coincident_closed (dx t : Q) :
  (0 <= dx)%Q ->
  _is_coincident b dx t = true <->
  exists y, In y b /\ (t - dx <= y)%Q /\ (y <= t + dx)%Q.
Proof.
  intros Hdx. unfold _is_coincident.
  destruct (bisect_left_spec (t - dx)) as (Ll & L1 & L2).
  destruct (bisect_right_spec (t + dx)) as (Rl & R1 & R2).
  rewrite negb_true_iff, Nat.eqb_neq.
  split.
  - intros Hne.
    destruct (Nat.lt_ge_cases (bisect_left b (t - dx)) (bisect_right b (t + dx)))
      as [Hlt | Hge].
    + exists (nth (bisect_left b (t - dx)) b 0%Q). split; [|split].
      * apply nth_In. lia.
      * apply L2; lia.
      * apply R1; lia.
    + exfalso.
      assert (Hi : bisect_right b (t + dx) < bisect_left b (t - dx)) by lia.
      pose proof (L1 _ Hi) as A.
      assert (B : (t + dx < nth (bisect_right b (t + dx)) b 0)%Q)
        by (apply R2; lia).
      assert (C : (t + dx < t - dx)%Q) by (eapply Qlt_trans; eauto).
      lra.
  - intros (y & Hy & Hlo & Hhi) Heq.
    destruct (In_nth _ _ 0%Q Hy) as (i & Hi & Hn). subst y.
    destruct (Nat.lt_ge_cases i (bisect_left b (t - dx))) as [Hlt | Hge].
    + pose proof (L1 _ Hlt). lra.
    + assert (B : (t + dx < nth i b 0)%Q) by (apply R2; lia). lra.
Qed.

Transparent Nat.div.

End BisectSpec.

(** ** [find_coincidences] *)

Lemma nonzero_from_In (out : list bool) :
  forall k i, In i (nonzero_from k out) <->
              k <= i /\ nth_error out (i - k) = Some true.
Proof.
  induction out as [|f r IH]; intros k i; simpl.
  - split; [tauto|]. intros [_ H]. destruct (i - k); discriminate.
  - assert (Hstep : In i (nonzero_from (S k) r) <->
                    S k <= i /\ nth_error (f :: r) (i - k) = Some true).
    { rewrite IH. split; intros [Hk Hn]; split; auto.
      - replace (i - k) with (S (i - S k)) by lia. exact Hn.
      - replace (i - k) with (S (i - S k)) in Hn by lia. exact Hn. }
    destruct f; simpl; rewrite ?Hstep.
    + split.
      * intros [<- | [Hk Hn]]; [rewrite Nat.sub_diag; auto | split; [lia | auto]].
      * intros [Hk Hn]. destruct (Nat.eq_dec k i) as [->|Hne]; [auto|].
        right. split; [lia | auto].
    + split.
      * intros [Hk Hn]; split; [lia | auto].
      * intros [Hk Hn]. split; [|auto].
        destruct (Nat.eq_dec k i) as [->|Hne]; [|lia].
        rewrite Nat.sub_diag in Hn. discriminate.
Qed.

Lemma nonzero_In (out : list bool) (i : nat) :
  In i (nonzero out) <-> nth_error out i = Some true.
Proof.
  unfold nonzero. rewrite nonzero_from_In, Nat.sub_0_r.
  intuition lia.
Qed.

(** What the code computes: with [b] ascending and [dt >= 0], the positions
    of [a] that have an element of [b] in the window closed at BOTH ends. *)
Lemma find_coincidences_closed_window (a b : list Q) (dt : Q) (i : nat) :
  ascending b -> (0 <= dt)%Q ->
  In i (find_coincidences a b dt) <->
  i < length a /\
  exists y, In y b /\ (nth i a 0 - dt / 2 <= y)%Q /\ (y <= nth i a 0 + dt / 2)%Q.
Proof.
  intros Hb Hdt. unfold find_coincidences. rewrite nonzero_In.
  assert (Hdx : (0 <= dt / 2)%Q).
  { apply Qle_shift_div_l; [reflexivity | lra]. }
  split.
  - intros Hn.
    assert (Hi : i < length a).
    { rewrite <- (length_map (_is_coincident b (dt / 2)%Q)).
      apply nth_error_Some. congruence. }
    split; [exact Hi|].
    apply (_is_coincident_closed Hb _ Hdx).
    rewrite (nth_error_nth' _ false) in Hn by (now rewrite length_map).
    injection Hn as Hn.
    rewrite <- Hn. symmetry.
    rewrite (nth_indep _ false (_is_coincident b (dt / 2)%Q 0%Q))
      by (now rewrite length_map).
    apply map_nth.
  - intros [Hi Hy].
    apply (_is_coincident_closed Hb _ Hdx) in Hy.
    rewrite (nth_error_nth' _ false) by (now rewrite length_map).
    f_equal. rewrite <- Hy.
    rewrite (nth_indep _ false (_is_coincident b (dt / 2)%Q 0%Q))
      by (now rewrite length_map).
    apply map_nth.
Qed.

(** C2.  The docstring promises the half-open window [[-dt/2, +dt/2)], but
    [bisect_right] also counts an element equal to [t + dt/2]: with
    [a = [0]], [b = [1]] and [dt = 2] the only element of [b] sits exactly
    on the upper end point [0 + 2/2], and position 0 is still returned. *)
Theorem find_coincidences_upper_endpoint_hit :
  let a := [0%Q] in
  let b := [1%Q] in
  let dt := 2%Q in
  ascending b /\
  (forall y, In y b -> ~ (nth 0 a 0 - dt / 2 <= y /\ y < nth 0 a 0 + dt / 2)%Q) /\
  find_coincidences a b dt = [0].
Proof.
  cbv zeta. split; [|split].
  - intros i j Hij Hj. simpl in Hj.
    assert (j = 0) by lia. assert (i = 0) by lia. subst. simpl. lra.
  - intros y [<- | []]. simpl. intros [_ H].
    revert H. unfold Qlt. simpl. lia.
  - reflexivity.
Qed.

(** ** [HvetoWinner] *)

(** C10.  A freshly constructed winner has the [ncoinc] and [n_vetoed] slots
    unset: reading either raises [AttributeError], and the instance does not
    depend on the [ncoinc] argument. *)
Theorem HvetoWinner_init_leaves_ncoinc_unset
  (nm : option string) (sg : option fl) (sn wi : option Q)
  (se : option segmentlist) (ev : option table) (nc : nat) (m : option fl) :
  let w := HvetoWinner_init nm sg sn wi se ev nc m in
  getattr (ncoinc w) = Raise AttributeError /\
  getattr (n_vetoed w) = Raise AttributeError /\
  (forall nc', HvetoWinner_init nm sg sn wi se ev nc' m = w) /\
  getattr (name w) = Ok nm /\
  getattr (w_significance w) = Ok sg /\
  getattr (w_snr w) = Ok sn /\
  getattr (window w) = Ok wi /\
  getattr (segments w) = Ok se /\
  getattr (events w) = Ok ev /\
  getattr (mu w) = Ok m.
Proof.
  cbv zeta. repeat split.
Qed.

(** ** Sorting a table by time *)

Lemma insert_by_time_perm (e : event) (l : table) :
  Permutation (insert_by_time e l) (e :: l).
Proof.
  induction l as [|x r IH]; simpl; [reflexivity|].
  destruct (Qltb (time e) (time x)); [reflexivity|].
  rewrite IH. apply perm_swap.
Qed.

Lemma sort_by_time_perm (l : table) : Permutation (sort_by_time l) l.
Proof.
  induction l as [|e r IH]; simpl; [reflexivity|].
  rewrite insert_by_time_perm. now constructor.
Qed.

Lemma insert_by_time_Forall (P : event -> Prop) (e : event) (l : table) :
  P e -> Forall P l -> Forall P (insert_by_time e l).
Proof.
  intros He Hl.
  eapply Permutation_Forall.
  - symmetry. apply insert_by_time_perm.
  - now constructor.
Qed.

Lemma insert_by_time_sorted (e : event) (l : table) :
  time_sorted l -> time_sorted (insert_by_time e l).
Proof.
  unfold time_sorted.
  induction l as [|x r IH]; intros Hs; simpl.
  - repeat constructor.
  - inversion Hs as [|? ? Hr Hx]; subst.
    destruct (Qltb (time e) (time x)) eqn:C; qbool.
    + constructor; [exact Hs|].
      constructor; [lra|].
      eapply Forall_impl; [|exact Hx]. simpl. intros y Hy. lra.
    + constructor; [now apply IH|].
      apply insert_by_time_Forall; assumption.
Qed.

Lemma sort_by_time_sorted (l : table) : time_sorted (sort_by_time l).
Proof.
  induction l as [|e r IH]; simpl.
  - constructor.
  - now apply insert_by_time_sorted.
Qed.

Lemma time_sorted_map (l : table) :
  time_sorted l -> StronglySorted Qle (map time l).
Proof.
  unfold time_sorted. induction 1 as [|x r Hr IH Hx]; simpl; constructor; auto.
  rewrite Forall_map. exact Hx.
Qed.

(** ** Coalesced segment lists *)

Lemma insert_seg_Forall (P : segment -> Prop) (s : segment) (l : segmentlist) :
  P s -> Forall P l -> Forall P (insert_seg s l).
Proof.
  intros Hs. induction 1 as [|x r Hx Hr IH]; simpl.
  - now repeat constructor.
  - destruct (seg_ltb s x); repeat constructor; auto.
Qed.

Lemma sort_segs_Forall (P : segment -> Prop) (l : segmentlist) :
  Forall P l -> Forall P (sort_segs l).
Proof.
  induction 1; simpl; [constructor|]. now apply insert_seg_Forall.
Qed.

Lemma seg_ltb_true_start (s x : segment) :
  seg_ltb s x = true -> (fst s <= fst x)%Q.
Proof.
  unfold seg_ltb. intros H. apply orb_true_iff in H as [H | H].
  - qbool. lra.
  - apply andb_true_iff in H as [H _]. qbool. lra.
Qed.

Lemma seg_ltb_false_start (s x : segment) :
  seg_ltb s x = false -> (fst x <= fst s)%Q.
Proof.
  unfold seg_ltb. intros H. apply orb_false_iff in H as [H _]. now qbool.
Qed.

Lemma insert_seg_sorted (s : segment) (l : segmentlist) :
  start_sorted l -> start_sorted (insert_seg s l).
Proof.
  unfold start_sorted.
  induction l as [|x r IH]; intros Hs; simpl.
  - repeat constructor.
  - inversion Hs as [|? ? Hr Hx]; subst.
    destruct (seg_ltb s x) eqn:C.
    + apply seg_ltb_true_start in C.
      constructor; [exact Hs|].
      constructor; [exact C|].
      eapply Forall_impl; [|exact Hx]. simpl. intros y Hy. lra.
    + apply seg_ltb_false_start in C.
      constructor; [now apply IH|].
      now apply insert_seg_Forall.
Qed.

Lemma sort_segs_sorted (l : segmentlist) : start_sorted (sort_segs l).
Proof.
  induction l; simpl; [constructor|]. now apply insert_seg_sorted.
Qed.

Lemma Segment_ordered (lo hi : Q) : (lo <= hi)%Q -> Segment lo hi = (lo, hi).
Proof.
  intros H. unfold Segment. apply Qle_bool_iff in H. now rewrite H.
Qed.

Lemma py_max_ge (hi x : Q) : (hi <= py_max hi x)%Q.
Proof.
  unfold py_max. destruct (Qltb hi x) eqn:C; qbool; lra.
Qed.

Lemma coalesce_run_chain (rest : segmentlist) :
  forall lo hi,
    (lo <= hi)%Q ->
    Forall wf_seg rest -> start_sorted rest ->
    Forall (fun s => (lo <= fst s)%Q) rest ->
    chain (coalesce_run lo hi rest) /\
    Forall (fun s => (lo <= fst s)%Q) (coalesce_run lo hi rest).
Proof.
  induction rest as [|[a b] r IH]; intros lo hi Hlh Hwf Hs Hlo; simpl.
  - unfold emit. destruct (Qeq_bool lo hi) eqn:E.
    + simpl. auto.
    + qbool. rewrite Segment_ordered by assumption. simpl.
      repeat split; auto.
      * apply Qle_lt_or_eq in Hlh as [H | H]; [exact H | contradiction].
      * constructor; [simpl; lra | constructor].
  - inversion Hwf as [|? ? Hab Hwf']; subst.
    inversion Hs as [|? ? Hs' Ha]; subst.
    inversion Hlo as [|? ? Hla Hlo']; subst.
    unfold wf_seg in Hab. simpl in *.
    destruct (Qle_bool a hi) eqn:C; qbool.
    + apply IH; auto.
      pose proof (py_max_ge hi b). lra.
    + destruct (IH a b Hab Hwf' Hs' Ha) as [Hc Hf].
      unfold emit. destruct (Qeq_bool lo hi) eqn:E; qbool.
      * split; [exact Hc|].
        eapply Forall_impl; [|exact Hf]. simpl. intros y Hy. lra.
      * rewrite Segment_ordered by assumption. simpl.
        repeat split.
        -- apply Qle_lt_or_eq in Hlh as [H | H]; [exact H | contradiction].
        -- eapply Forall_impl; [|exact Hf]. simpl. intros y Hy. lra.
        -- exact Hc.
        -- constructor; [simpl; lra|].
           eapply Forall_impl; [|exact Hf]. simpl. intros y Hy. lra.
Qed.

(** [coalesce] returns a coalesced list. *)
Lemma coalesce_chain (l : segmentlist) :
  Forall wf_seg l -> chain (coalesce l).
Proof.
  intros Hwf. unfold coalesce.
  pose proof (sort_segs_Forall Hwf) as Hwf'.
  pose proof (sort_segs_sorted l) as Hs.
  destruct (sort_segs l) as [|[lo hi] r]; [exact I|].
  inversion Hwf' as [|? ? Hlh Hr]; subst.
  inversion Hs as [|? ? Hs' Hlo]; subst.
  now apply coalesce_run_chain.
Qed.

Lemma sort_segs_chain (l : segmentlist) : chain l -> sort_segs l = l.
Proof.
  induction l as [|[a b] r IH]; intros Hc; simpl; [reflexivity|].
  destruct Hc as (Hab & Hf & Hr). simpl in *.
  rewrite (IH Hr).
  destruct r as [|[a' b'] r']; simpl; [reflexivity|].
  inversion Hf as [|? ? Hb _]; subst. simpl in Hb.
  assert (E : seg_ltb (a, b) (a', b') = true).
  { unfold seg_ltb. simpl. apply orb_true_iff. left. apply Qltb_lt. lra. }
  now rewrite E.
Qed.

Lemma coalesce_run_fixed (r : segmentlist) :
  forall a b, chain ((a, b) :: r) -> coalesce_run a b r = (a, b) :: r.
Proof.
  induction r as [|[a' b'] r' IH]; intros a b (Hab & Hf & Hr); simpl in *.
  - unfold emit.
    assert (E : Qeq_bool a b = false).
    { destruct (Qeq_bool a b) eqn:E; [qbool; lra | reflexivity]. }
    rewrite E. rewrite Segment_ordered by lra. reflexivity.
  - inversion Hf as [|? ? Hb _]; subst. simpl in Hb.
    assert (C : Qle_bool a' b = false) by (apply Qle_bool_gt; exact Hb).
    rewrite C. rewrite (IH a' b' Hr).
    unfold emit.
    assert (E : Qeq_bool a b = false).
    { destruct (Qeq_bool a b) eqn:E; [qbool; lra | reflexivity]. }
    rewrite E. rewrite Segment_ordered by lra. reflexivity.
Qed.

(** A coalesced list is a fixed point of [coalesce]. *)
Lemma coalesce_fixed (l : segmentlist) : chain l -> coalesce l = l.
Proof.
  intros Hc. unfold coalesce. rewrite (sort_segs_chain _ Hc).
  destruct l as [|[a b] r]; [reflexivity|].
  now apply coalesce_run_fixed.
Qed.

Lemma coalesce_idempotent (l : segmentlist) :
  Forall wf_seg l -> coalesce (coalesce l) = coalesce l.
Proof.
  intros Hwf. apply coalesce_fixed. now apply coalesce_chain.
Qed.

(** ** The veto scan *)

Lemma veto_loop_nil (rest : segmentlist) (a b : Q) :
  veto_loop rest a b [] = [].
Proof. destruct rest; reflexivity. Qed.

Lemma veto_loop_cons (rest : segmentlist) (a b t : Q) (ts : list Q) :
  veto_loop rest a b (t :: ts) =
  if Qltb t a then true :: veto_loop rest a b ts
  else if Qltb b t then
    match rest with
    | [] => map (fun _ => true) (t :: ts)
    | (a', b') :: rest' => veto_loop rest' a' b' (t :: ts)
    end
  else false :: veto_loop rest a b ts.
Proof. destruct rest as [|[a' b'] rest']; reflexivity. Qed.

Lemma covered_later (segs : segmentlist) (lb t : Q) :
  Forall (fun s => (lb < fst s)%Q) segs -> (t <= lb)%Q -> covered segs t = false.
Proof.
  induction 1 as [|s r Hs Hr IH]; intros Ht; simpl; [reflexivity|].
  rewrite (IH Ht), orb_false_r.
  unfold in_segment.
  assert (E : Qle_bool (fst s) t = false) by (apply Qle_bool_gt; lra).
  now rewrite E.
Qed.

(** On ascending times and a coalesced list, the flag the scan leaves for an
    event is [False] exactly when its time is inside some segment. *)
Lemma veto_loop_spec (rest : segmentlist) :
  forall a b times,
    chain ((a, b) :: rest) ->
    StronglySorted Qle times ->
    veto_loop rest a b times =
    map (fun t => negb (covered ((a, b) :: rest) t)) times.
Proof.
  induction rest as [|[a' b'] rest' IHrest]; intros a b times Hc Hs.
  - induction times as [|t ts IHt]; [reflexivity|].
    inversion Hs as [|? ? Hs' Hle]; subst.
    rewrite veto_loop_cons.
    destruct Hc as (Hab & _ & _). simpl in Hab.
    destruct (Qltb t a) eqn:C1; qbool.
    + rewrite (IHt Hs'). simpl. f_equal.
      unfold in_segment. simpl.
      assert (E : Qle_bool a t = false) by (apply Qle_bool_gt; lra).
      now rewrite E.
    + destruct (Qltb b t) eqn:C2; qbool.
      * apply map_ext_in. intros t' Ht'.
        assert (Htt : (t <= t')%Q).
        { destruct Ht' as [<- | Ht']; [lra|].
          rewrite Forall_forall in Hle. now apply Hle. }
        simpl. unfold in_segment. simpl.
        assert (E : Qle_bool t' b = false) by (apply Qle_bool_gt; lra).
        now rewrite E, andb_false_r.
      * rewrite (IHt Hs'). simpl. f_equal.
        unfold in_segment. simpl.
        apply Qle_bool_iff in C1, C2. now rewrite C1, C2.
  - induction times as [|t ts IHt]; [reflexivity|].
    inversion Hs as [|? ? Hs' Hle]; subst.
    rewrite veto_loop_cons.
    destruct Hc as (Hab & Hf & Hc'). simpl in Hab.
    destruct (Qltb t a) eqn:C1; qbool.
    + rewrite (IHt Hs'). cbn [map]. f_equal.
      change (covered ((a, b) :: (a', b') :: rest') t)
        with (in_segment (a, b) t || covered ((a', b') :: rest') t).
      rewrite (@covered_later ((a', b') :: rest') b t) by (auto; lra).
      unfold in_segment. simpl.
      assert (E : Qle_bool a t = false) by (apply Qle_bool_gt; lra).
      now rewrite E.
    + destruct (Qltb b t) eqn:C2; qbool.
      * rewrite (IHrest a' b' (t :: ts) Hc' Hs).
        apply map_ext_in. intros t' Ht'.
        assert (Htt : (t <= t')%Q).
        { destruct Ht' as [<- | Ht']; [lra|].
          rewrite Forall_forall in Hle. now apply Hle. }
        change (covered ((a, b) :: (a', b') :: rest') t')
          with (in_segment (a, b) t' || covered ((a', b') :: rest') t').
        unfold in_segment at 1. simpl fst. simpl snd.
        assert (E : Qle_bool t' b = false) by (apply Qle_bool_gt; lra).
        now rewrite E, andb_false_r.
      * rewrite (IHt Hs'). cbn [map]. f_equal.
        change (covered ((a, b) :: (a', b') :: rest') t)
          with (in_segment (a, b) t || covered ((a', b') :: rest') t).
        unfold in_segment at 1. simpl fst. simpl snd.
        apply Qle_bool_iff in C1, C2. now rewrite C1, C2.
Qed.

Lemma select_map (A : Type) (p : A -> bool) (l : list A) :
  select l (map p l) = filter p l.
Proof.
  induction l as [|x r IH]; simpl; [reflexivity|].
  rewrite IH. reflexivity.
Qed.


Lemma filter_perm (A : Type) (p : A -> bool) (l l' : list A) :
  Permutation l l' -> Permutation (filter p l) (filter p l').
Proof.
  induction 1 as [| x l l' _ IH | x y l | l l' l'' _ IH1 _ IH2]; simpl.
  - reflexivity.
  - destruct (p x); [now constructor | exact IH].
  - destruct (p x), (p y); try reflexivity. apply perm_swap.
  - now transitivity (filter p l').
Qed.


Lemma veto_nonempty (tbl : table) (segs : segmentlist) :
  Forall wf_seg segs -> coalesce segs <> [] ->
  veto tbl segs = Ok (kept_of segs tbl, removed_of segs tbl).
Proof.
  intros Hwf Hne. unfold veto, kept_of, removed_of.
  pose proof (coalesce_chain Hwf) as Hc.
  destruct (coalesce segs) as [|[a b] rest]; [contradiction|].
  rewrite (veto_loop_spec Hc (time_sorted_map (sort_by_time_sorted tbl))).
  rewrite !map_map.
  rewrite (select_map (fun e => negb (covered ((a, b) :: rest) (time e)))).
  f_equal. f_equal.
  rewrite <- (select_map (fun e => covered ((a, b) :: rest) (time e))).
  f_equal. apply map_ext. intros e. apply negb_involutive.
Qed.



(** C3.  On an empty segment list [segmentlist[0]] raises [IndexError]
    before the scan starts: no partition is returned, although no event lies
    in any segment and the claim asks for [(table, [])]. *)
Theorem veto_empty_segmentlist_raises (tbl : table) :
  coalesce [] = [] /\ veto tbl [] = Raise IndexError.
Proof. split; reflexivity. Qed.

(** C8.  [veto] never rejects its segment list: it coalesces the list itself
    and works on the coalesced copy.  The call on any list of segments is
    the call on its coalesced form; it returns a partition whenever that
    form is not empty, and the only error it can raise is the [IndexError]
    of an empty coalesced list. *)
Theorem veto_coalesces_its_input (tbl : table) (segs : segmentlist)
  (Hwf : Forall wf_seg segs) :
  veto tbl segs = veto tbl (coalesce segs) /\
  (coalesce segs <> [] ->
   veto tbl segs = Ok (kept_of (coalesce segs) tbl, removed_of (coalesce segs) tbl)) /\
  (forall e, veto tbl segs = Raise e -> e = IndexError /\ coalesce segs = []).
Proof.
  split; [|split].
  - unfold veto. now rewrite (coalesce_idempotent Hwf).
  - intros Hne. rewrite (veto_nonempty tbl Hwf Hne).
    unfold kept_of, removed_of. now rewrite (coalesce_idempotent Hwf).
  - intros e He. unfold veto in He.
    destruct (coalesce segs) as [|[a b] r]; [|discriminate].
    split; [congruence | reflexivity].
Qed.

Lemma veto_coalesces_its_input_witness :
  let segs := [(5, 6); (1, 3); (2, 4)]%Q in
  let tbl := [ev0 7; ev0 2] in
  Forall wf_seg segs /\
  veto tbl segs = veto tbl (coalesce segs).
Proof.
  cbv zeta.
  assert (Hwf : Forall wf_seg [(5, 6); (1, 3); (2, 4)]%Q).
  { repeat constructor; unfold wf_seg; simpl; lra. }
  split; [exact Hwf|].
  exact (proj1 (veto_coalesces_its_input [ev0 7; ev0 2] Hwf)).
Defined.

(** An unsorted list with overlapping segments is accepted: it differs from
    its coalesced form, and [veto] returns the partition for that form. *)
Lemma veto_accepts_uncoalesced :
  let segs := [(5, 6); (1, 3); (2, 4)]%Q in
  let tbl := [ev0 7; ev0 2] in
  coalesce segs = [(1, 4); (5, 6)]%Q /\
  coalesce segs <> segs /\
  veto tbl segs = Ok ([ev0 7], [ev0 2]) /\
  ~ exists e, veto tbl segs = Raise e.
Proof.
  cbv zeta. repeat split.
  - discriminate.
  - intros [e He]. discriminate He.
Qed.

(** ** [veto_all] against per-channel [veto] *)












(** ** [find_all_coincidences] *)

(** C1.  The scan from a primary event stops at the first neighbour that is
    itself a primary event ([add_if_coinc] returns [None] for it).  With
    primary events at 0 and 1 and one auxiliary event at 2 (snr 10), window
    10 and threshold 5, both primary events have the auxiliary event inside
    their window, but the scan from the event at 0 meets the event at 1
    first and stops: the count is 1 where the specification counts 2. *)
Theorem find_all_coincidences_stops_at_primary :
  let triggers := [prim 0; prim 1; auxA 2 10] in
  find_all_coincidences triggers "P" [5%Q] [10%Q] = [((10, 5)%Q, [("A"%string, 1)])] /\
  count_of (find_all_coincidences triggers "P" [5%Q] [10%Q]) 10 5 "A" = 1 /\
  spec_count triggers "P" "A" 10 5 = 2.
Proof. cbv zeta. repeat split. Qed.

(** The part of the claim that holds: three qualifying neighbours of one
    channel around one primary event count once. *)
Lemma three_neighbours_count_once :
  let triggers := [auxA 1 10; prim 2; auxA 3 10; auxA 4 10] in
  count_of (find_all_coincidences triggers "P" [5%Q] [10%Q]) 10 5 "A" = 1 /\
  spec_count triggers "P" "A" 10 5 = 1.
Proof. cbv zeta. split; reflexivity. Qed.

(** ** [find_max_significance] *)

Lemma for_cell_no_scores (primary : table) (auxiliary : tables) (livetime : Q)
  (coincs : celldict countdict) (st : HvetoWinner * sigdict) :
  no_scores coincs -> for_cell primary auxiliary livetime coincs st = Ok st.
Proof.
  induction 1 as [|[p d] r Hd Hr IH]; simpl; [reflexivity|].
  simpl in Hd. subst d. simpl. exact IH.
Qed.

Lemma product_nil_r (ws : list Q) : product ws [] = [].
Proof. induction ws; simpl; auto. Qed.

Lemma fold_left_fixed (A B : Type) (f : A -> B -> A) (l : list B) (a : A) :
  (forall b, f a b = a) -> fold_left f l a = a.
Proof.
  intros H. induction l as [|b r IH]; simpl; [reflexivity|].
  rewrite H. exact IH.
Qed.

Lemma scan_no_cells (primary : ChannelId) (windows snrs : list Q)
  (segs : list segment) (evs : list event) :
  scan primary windows snrs segs evs [] = [].
Proof.
  induction evs as [|ev r IH]; simpl; [reflexivity|].
  unfold add_if_coinc.
  destruct (String.eqb (channel ev) primary); [reflexivity|].
  simpl. rewrite fold_left_fixed; [exact IH|].
  intros k. apply fold_left_fixed. reflexivity.
Qed.

Lemma find_all_coincidences_empty_grid (triggers : table) (primary : ChannelId)
  (snrs windows : list Q) :
  windows = [] \/ snrs = [] ->
  find_all_coincidences triggers primary snrs windows = [].
Proof.
  intros H. unfold find_all_coincidences.
  assert (E : product (sorted_reverse windows) (sorted snrs) = []).
  { destruct H as [-> | ->]; simpl; [reflexivity | apply product_nil_r]. }
  rewrite E. unfold cell_dict_of. simpl.
  induction (seq 0 (length (sort_by_time triggers))) as [|i l IH];
    simpl; [reflexivity|].
  destruct (nth_error (sort_by_time triggers) i) as [x|]; [|exact IH].
  destruct (negb (String.eqb (channel x) primary)); [exact IH|].
  simpl. rewrite !scan_no_cells. simpl. exact IH.
Qed.

(** C4.  When the grid is empty or no cell has any coincidence, the search
    returns without error the winner it started from: significance -1,
    name ['unknown'] (a string, not [None]), [snr], [window] and [mu]
    [None], and every channel's best significance 0. *)
Theorem find_max_significance_sentinel (primary : table) (auxiliary : tables)
  (livetime : Q) (channel : ChannelId) (snrs windows : list Q)
  (Hnone : windows = [] \/ snrs = [] \/
           no_scores (find_all_coincidences (concat (primary :: map snd auxiliary))
                                            channel snrs windows)) :
  find_max_significance primary auxiliary livetime channel snrs windows =
    Ok (sentinel, sigs_of (map fst auxiliary) (Fin 0)) /\
  getattr (w_significance sentinel) = Ok (Some (Fin (-1))) /\
  getattr (name sentinel) = Ok (Some "unknown"%string).
Proof.
  split; [|split; reflexivity].
  unfold find_max_significance, vstack_tables. cbn [bind].
  apply for_cell_no_scores.
  destruct Hnone as [H | [H | H]].
  - rewrite find_all_coincidences_empty_grid by auto. constructor.
  - rewrite find_all_coincidences_empty_grid by auto. constructor.
  - exact H.
Qed.

Lemma find_max_significance_sentinel_witness :
  let primary := [prim 0] in
  let auxiliary := [("A"%string, [auxA 100 10])] in
  no_scores (find_all_coincidences (concat (primary :: map snd auxiliary))
                                   "P" [5%Q] [1%Q]) /\
  find_max_significance primary auxiliary 1000 "P" [5%Q] [1%Q] =
    Ok (sentinel, [("A"%string, Fin 0)]).
Proof.
  cbv zeta.
  assert (H : no_scores (find_all_coincidences
                           (concat ([prim 0] :: map snd [("A"%string, [auxA 100 10])]))
                           "P" [5%Q] [1%Q])).
  { repeat constructor. }
  split; [exact H|].
  exact (proj1 (@find_max_significance_sentinel [prim 0]
                  [("A"%string, [auxA 100 10])] 1000 "P" [5%Q] [1%Q]
                  (or_intror (or_intror H)))).
Defined.

(** The sentinel's name is the string ['unknown'], so "no channel" is not
    [None]: already on an empty grid with no auxiliary channel. *)
Lemma find_max_significance_sentinel_name :
  exists w sigs,
    find_max_significance [] [] 1 "P" [] [] = Ok (w, sigs) /\
    getattr (w_significance w) = Ok (Some (Fin (-1))) /\
    getattr (name w) = Ok (Some "unknown"%string) /\
    getattr (name w) <> Ok None.
Proof.
  exists sentinel, []. repeat split. discriminate.
Qed.

(** ** Signs of reals *)

Lemma Rsign_pos (x : R) : (0 < x)%R -> Rsign x = Gt.
Proof.
  intros H. unfold Rsign.
  destruct (total_order_T x 0) as [[L | E] | G]; try reflexivity; lra.
Qed.

Lemma Rsign_zero (x : R) : x = 0%R -> Rsign x = Eq.
Proof.
  intros H. unfold Rsign.
  destruct (total_order_T x 0) as [[L | E] | G]; try reflexivity; lra.
Qed.

Lemma ln_10_pos : (0 < ln 10)%R.
Proof.
  rewrite <- ln_1. apply ln_increasing; lra.
Qed.

(** ** The Poisson tail *)

Section PoissonTail.

Local Open Scope R_scope.

Lemma INR_fact_pos (n : nat) : 0 < INR (fact n).
Proof. apply lt_0_INR. apply lt_O_fact. Qed.

Lemma exp_sum_term_nonneg (n : nat) (x : R) :
  0 <= x -> 0 <= x ^ n / INR (fact n).
Proof.
  intros Hx. apply Rmult_le_pos.
  - now apply pow_le.
  - left. apply Rinv_0_lt_compat. apply INR_fact_pos.
Qed.

Lemma exp_sum_at_0 (n : nat) : exp_sum (S n) 0 = 1.
Proof.
  induction n as [|n IH].
  - simpl. field.
  - change (exp_sum (S (S n)) 0) with (exp_sum (S n) 0 + 0 ^ S n / INR (fact (S n))).
    rewrite IH, pow_ne_zero by discriminate.
    unfold Rdiv. lra.
Qed.

Lemma poisson_tail_at_0 (n : nat) : poisson_tail (S n) 0 = 0.
Proof.
  unfold poisson_tail. rewrite exp_sum_at_0, Ropp_0, exp_0. lra.
Qed.

Lemma exp_sum_deriv (n : nat) (x : R) :
  derivable_pt_lim (exp_sum (S n)) x (exp_sum n x).
Proof.
  induction n as [|n IH].
  - apply derivable_pt_lim_ext with (f := fct_cte 1).
    + intros z. unfold fct_cte. simpl. field.
    + simpl. apply derivable_pt_lim_const.
  - apply derivable_pt_lim_ext
      with (f := plus_fct (exp_sum (S n))
                          (mult_real_fct (/ INR (fact (S n))) (fun y => y ^ S n))).
    + intros z. unfold plus_fct, mult_real_fct.
      change (exp_sum (S (S n)) z)
        with (exp_sum (S n) z + z ^ S n / INR (fact (S n))).
      unfold Rdiv. lra.
    + replace (exp_sum (S n) x)
        with (exp_sum n x + / INR (fact (S n)) * (INR (S n) * x ^ pred (S n))).
      * apply derivable_pt_lim_plus; [exact IH|].
        apply derivable_pt_lim_scal. apply derivable_pt_lim_pow.
      * change (exp_sum (S n) x) with (exp_sum n x + x ^ n / INR (fact n)).
        rewrite fact_simpl, mult_INR. simpl pred.
        pose proof (INR_fact_pos n).
        assert (INR (S n) <> 0) by (apply not_0_INR; discriminate).
        field. split; lra.
Qed.

Lemma exp_opp_deriv (x : R) :
  derivable_pt_lim (fun y => exp (- y)) x (- exp (- x)).
Proof.
  apply derivable_pt_lim_ext with (f := comp exp (opp_fct id)).
  - intros z. reflexivity.
  - replace (- exp (- x)) with (exp (opp_fct id x) * (- 1)).
    + apply derivable_pt_lim_comp.
      * apply derivable_pt_lim_opp. apply derivable_pt_lim_id.
      * apply derivable_pt_lim_exp.
    + unfold opp_fct, id. lra.
Qed.

Lemma poisson_tail_deriv (n : nat) (x : R) :
  derivable_pt_lim (poisson_tail (S n)) x (exp (- x) * (x ^ n / INR (fact n))).
Proof.
  apply derivable_pt_lim_ext
    with (f := minus_fct (fct_cte 1)
                         (mult_fct (fun y => exp (- y)) (exp_sum (S n)))).
  - intros z. reflexivity.
  - replace (exp (- x) * (x ^ n / INR (fact n)))
      with (0 - (- exp (- x) * exp_sum (S n) x + exp (- x) * exp_sum n x)).
    + apply derivable_pt_lim_minus; [apply derivable_pt_lim_const|].
      apply (derivable_pt_lim_mult (fun y => exp (- y)) (exp_sum (S n)) x
               (- exp (- x)) (exp_sum n x));
        [apply exp_opp_deriv | apply exp_sum_deriv].
    + change (exp_sum (S n) x) with (exp_sum n x + x ^ n / INR (fact n)). lra.
Qed.

Lemma poisson_tail_slope_pos (n : nat) (c : R) :
  0 < c -> 0 < exp (- c) * (c ^ n / INR (fact n)).
Proof.
  intros Hc. apply Rmult_lt_0_compat; [apply exp_pos|].
  apply Rdiv_lt_0_compat; [now apply pow_lt | apply INR_fact_pos].
Qed.

(** It is positive as soon as something is expected ... *)
Lemma poisson_tail_pos (n : nat) (x : R) : 0 < x -> 0 < poisson_tail (S n) x.
Proof.
  intros Hx.
  destruct (MVT_cor2 (poisson_tail (S n))
              (fun c => exp (- c) * (c ^ n / INR (fact n))) 0 x Hx)
    as (c & Hc & Hin).
  - intros c _. apply poisson_tail_deriv.
  - rewrite poisson_tail_at_0 in Hc.
    assert (0 < exp (- c) * (c ^ n / INR (fact n)))
      by (apply poisson_tail_slope_pos; lra).
    nra.
Qed.

End PoissonTail.

(** ** [significance] *)

Lemma significance_zero_mu (n : nat) :
  significance (S n) (Fin 0) = Raise ValueError.
Proof.
  unfold significance. simpl gammainc.
  rewrite (Rsign_zero eq_refl). simpl.
  rewrite (Rsign_zero eq_refl). reflexivity.
Qed.

(** With something expected, the tail probability is positive and the
    significance is its negated decimal logarithm. *)
Lemma significance_pos_mu (n : nat) (x : R) :
  (0 < x)%R ->
  significance (S n) (Fin x) = Ok (Fin (- (ln (poisson_tail (S n) x) / ln 10))).
Proof.
  intros Hx.
  assert (Eg : gammainc (S n) (Fin x) = Fin (poisson_tail (S n) x)).
  { unfold gammainc. now rewrite (Rsign_pos Hx). }
  unfold significance. rewrite Eg.
  pose proof (poisson_tail_pos n Hx) as Hp.
  unfold fl_is_zero, log10. rewrite (Rsign_pos Hp). reflexivity.
Qed.

Lemma significance_none_found (x : R) :
  (0 < x)%R -> significance 0 (Fin x) = Ok (Fin 0).
Proof.
  intros Hx. unfold significance. simpl gammainc.
  rewrite (Rsign_pos Hx).
  unfold fl_is_zero, log10. rewrite (Rsign_pos Rlt_0_1).
  simpl. rewrite ln_1. do 2 f_equal. unfold Rdiv. lra.
Qed.

(** C5.  A zero livetime with at least one coincidence is not a defined
    case: the [ZeroDivisionError] is caught and the probability set to 0,
    but then [mu = 0], [gammainc(n, 0) = 0], and the fall-back formula
    evaluates [log10(0)], which raises [ValueError]. *)
Theorem coinc_significance_zero_livetime_raises (a b : list Q) (dt : Q)
  (Hn : find_coincidences a b dt <> []) :
  coinc_significance a b dt 0 = Raise ValueError.
Proof.
  unfold coinc_significance.
  destruct (find_coincidences a b dt) as [|i r] eqn:E; [contradiction|].
  cbn [length Nat.eqb].
  unfold py_truediv, except_ZeroDivisionError.
  rewrite (Qeq_bool_refl 0). cbn [bind].
  rewrite Q2R_mult, RMicromega.Q2R_0, Rmult_0_l.
  rewrite significance_zero_mu. reflexivity.
Qed.

Lemma coinc_significance_zero_livetime_raises_witness :
  find_coincidences [0%Q] [0%Q] 1 <> [] /\
  coinc_significance [0%Q] [0%Q] 1 0 = Raise ValueError.
Proof.
  assert (H : find_coincidences [0%Q] [0%Q] 1 <> []) by (vm_compute; discriminate).
  split; [exact H|].
  exact (coinc_significance_zero_livetime_raises [0%Q] [0%Q] 1 H).
Defined.

(** C6.  [significance] has no shortcut for [n = 0]: it evaluates
    [gammainc(0, mu)], which is 1 for [mu > 0], and returns
    [-log10(1) = 0]. *)
Theorem significance_zero_count (x : R) (Hx : (0 < x)%R) :
  gammainc 0 (Fin x) = Fin 1 /\
  significance 0 (Fin x) = Ok (Fin 0).
Proof.
  split.
  - simpl. now rewrite (Rsign_pos Hx).
  - now apply significance_none_found.
Qed.

Lemma significance_zero_count_witness :
  (0 < 1)%R /\ significance 0 (Fin 1) = Ok (Fin 0).
Proof.
  split; [exact Rlt_0_1|].
  exact (proj2 (significance_zero_count Rlt_0_1)).
Defined.

(** At [mu = 0] the value is not 0: [gammainc(0, 0)] is NaN and so is the
    result. *)
Lemma significance_zero_count_zero_mu :
  significance 0 (Fin 0) = Ok NaN /\ significance 0 (Fin 0) <> Ok (Fin 0).
Proof.
  assert (E : significance 0 (Fin 0) = Ok NaN).
  { unfold significance. simpl gammainc.
    rewrite (Rsign_zero eq_refl). reflexivity. }
  split; [exact E|]. rewrite E. discriminate.
Qed.

(** C7.  The claim covers [mu = 0], the value [coinc_significance] passes
    on for a zero livetime.  There [gammainc(1, 0)] is 0, the fall-back
    formula takes [log10(0)] and [significance(1, 0)] raises [ValueError]:
    [significance(0 + 1, 0) >= significance(0, 0)] has no left-hand side to
    compare.  This is the defect of C5, met from the other side. *)
Theorem significance_not_defined_at_zero_mu :
  significance 1 (Fin 0) = Raise ValueError /\
  ~ exists s s', significance 0 (Fin 0) = Ok (Fin s) /\
                 significance 1 (Fin 0) = Ok (Fin s') /\ (s <= s')%R.
Proof.
  split; [apply significance_zero_mu|].
  intros (s & s' & _ & H & _). rewrite significance_zero_mu in H. discriminate.
Qed.

(** * Further properties of the core *)

(** ** [find_coincidences] on the end points it computes *)


Lemma bool_eq_iff (x y : bool) : (x = true <-> y = true) -> x = y.
Proof. destruct x, y; intuition congruence. Qed.

(** *** Binary search for a computed end point *)








Section F64BisectSpec.

Opaque Nat.div.

Variable b : list Q.
Hypothesis Hasc : ascending b.






Transparent Nat.div.

End F64BisectSpec.

Lemma round_int_keeps_order : keeps_order round_int.
Proof.
  intros x y Hxy. unfold round_int, F64.x_leb.
  apply Qle_bool_iff. rewrite <- Zle_Qle.
  apply Qfloor_resp_le. lra.
Qed.

Lemma exact_half_halves : halves exact_half.
Proof.
  unfold exact_half. split; [discriminate|].
  intros d d' H. unfold Qdiv. apply Qmult_le_compat_r; [exact H | discriminate].
Qed.

Lemma halves_nonneg (half : Q -> Q) (d : Q) :
  halves half -> (0 <= d)%Q -> (0 <= half d)%Q.
Proof.
  intros [H0 Hm] Hd. apply Qle_trans with (half 0%Q); [exact H0 | now apply Hm].
Qed.





(** ** [significance]: when it fails and what it returns *)

Lemma Rsign_neg (x : R) : (x < 0)%R -> Rsign x = Lt.
Proof.
  intros H. unfold Rsign.
  destruct (total_order_T x 0) as [[L | E] | G]; try reflexivity; lra.
Qed.

Lemma significance_negative_mu (n : nat) (x : R) :
  (x < 0)%R -> significance n (Fin x) = Ok NaN.
Proof.
  intros Hx. unfold significance, gammainc. now rewrite (Rsign_neg Hx).
Qed.

(** X3.  [significance] raises in exactly one situation: at least one
    coincidence observed ([n >= 1]) with an expected count of exactly 0,
    and the error is then the [ValueError] of [log10(0)].  Everywhere else
    (negative, infinite or NaN expected counts included) it returns. *)
Theorem significance_raises_iff (n : nat) (mu : fl) :
  (forall e, significance n mu = Raise e -> e = ValueError) /\
  ((exists e, significance n mu = Raise e) <-> 0 < n /\ mu = Fin 0).
Proof.
  destruct mu as [x | | |].
  - destruct (total_order_T x 0) as [[L | E] | G].
    + rewrite (significance_negative_mu n L).
      split; [discriminate|].
      split; [intros [e He]; discriminate|].
      intros [_ H]. injection H as H. lra.
    + subst x. destruct n as [|n].
      * assert (E : significance 0 (Fin 0) = Ok NaN).
        { unfold significance, gammainc. now rewrite (Rsign_zero eq_refl). }
        rewrite E. split; [discriminate|].
        split; [intros [e He]; discriminate | intros [H _]; lia].
      * rewrite significance_zero_mu.
        split; [congruence|].
        split; [intros _; split; [lia | reflexivity] | intros _; eexists; reflexivity].
    + assert (E : exists v, significance n (Fin x) = Ok v).
      { destruct n as [|n]; eexists;
          [apply significance_none_found | apply significance_pos_mu]; exact G. }
      destruct E as [v E]. rewrite E.
      split; [discriminate|].
      split; [intros [e He]; discriminate|].
      intros [_ H]. injection H as H. lra.
  - assert (E : exists v, significance n PInf = Ok v).
    { unfold significance. simpl.
      unfold fl_is_zero, log10. rewrite (Rsign_pos Rlt_0_1). eexists. reflexivity. }
    destruct E as [v E]. rewrite E.
    split; [discriminate|].
    split; [intros [e He]; discriminate | intros [_ H]; discriminate].
  - split; [discriminate|].
    split; [intros [e He]; discriminate | intros [_ H]; discriminate].
  - split; [discriminate|].
    split; [intros [e He]; discriminate | intros [_ H]; discriminate].
Qed.

Lemma exp_sum_ge_1 (n : nat) (x : R) : (0 <= x)%R -> (1 <= exp_sum (S n) x)%R.
Proof.
  intros Hx. induction n as [|n IH].
  - simpl. right. field.
  - change (exp_sum (S (S n)) x)
      with (exp_sum (S n) x + x ^ S n / INR (fact (S n)))%R.
    pose proof (exp_sum_term_nonneg (S n) Hx). lra.
Qed.

Lemma poisson_tail_lt_1 (n : nat) (x : R) :
  (0 <= x)%R -> (poisson_tail (S n) x < 1)%R.
Proof.
  intros Hx. unfold poisson_tail.
  pose proof (exp_pos (- x)). pose proof (exp_sum_ge_1 n Hx). nra.
Qed.

Lemma neg_log_tail_pos (n : nat) (x : R) :
  (0 < x)%R -> (0 < - (ln (poisson_tail (S n) x) / ln 10))%R.
Proof.
  intros Hx.
  pose proof (poisson_tail_pos n Hx) as Hp.
  assert (Hl : (poisson_tail (S n) x < 1)%R) by (apply poisson_tail_lt_1; lra).
  assert (Hn : (ln (poisson_tail (S n) x) < 0)%R).
  { rewrite <- ln_1. now apply ln_increasing. }
  pose proof ln_10_pos as H10.
  pose proof (Rinv_0_lt_compat _ H10).
  unfold Rdiv. nra.
Qed.

(** ** [veto] against the segments as they were passed in *)














(** ** [HvetoWinner.get_segments] *)

Lemma Segment_window (t w : Q) :
  exists lo hi,
    Segment (t - w / 2) (t + w / 2) = (lo, hi) /\
    (lo == t - Qabs w / 2)%Q /\ (hi == t + Qabs w / 2)%Q.
Proof.
  unfold Segment.
  destruct (Qle_bool (t - w / 2) (t + w / 2)) eqn:C; qbool.
  - exists (t - w / 2)%Q, (t + w / 2)%Q. split; [reflexivity|].
    assert (Hw : (0 <= w)%Q).
    { assert (H : (0 <= w / 2)%Q) by lra.
      apply Qmult_le_r with (z := (/ 2)%Q); [reflexivity|].
      unfold Qdiv in H. lra. }
    rewrite (Qabs_pos w Hw). split; reflexivity.
  - exists (t + w / 2)%Q, (t - w / 2)%Q. split; [reflexivity|].
    assert (Hw : (w <= 0)%Q).
    { assert (H : (w / 2 < 0)%Q) by lra.
      apply Qmult_le_r with (z := (/ 2)%Q); [reflexivity|].
      unfold Qdiv in H. lra. }
    rewrite (Qabs_neg w Hw). unfold Qdiv. split; ring.
Qed.

(** X9.  What [get_segments] returns or raises.  With no times it returns
    the empty list whatever the window slot holds; otherwise it needs a
    number in [window]: [None] there (as in the winner a search without
    candidate leaves) gives [TypeError], an unset slot [AttributeError].
    When it returns, there is one segment per time, in order, reaching
    [|window|/2] to each side of its time. *)
Theorem get_segments_shape (self : HvetoWinner) (times : list Q) :
  match get_segments self times with
  | Return segs =>
      length segs = length times /\
      (times = [] \/
       exists w, window self = Some (Some w) /\
                 Forall2 (fun t s => (fst s == t - Qabs w / 2)%Q /\
                                     (snd s == t + Qabs w / 2)%Q) times segs)
  | Throw TypeError => times <> [] /\ window self = Some None
  | Throw (Builtin e) => e = AttributeError /\ times <> [] /\ window self = None
  end /\
  get_segments sentinel times =
    match times with [] => Return [] | _ :: _ => Throw TypeError end.
Proof.
  split; [|destruct times; reflexivity].
  unfold get_segments.
  destruct times as [|t0 ts]; [split; [reflexivity | now left]|].
  destruct (window self) as [[w|]|].
  - split; [now rewrite length_map|]. right. exists w. split; [reflexivity|].
    generalize (t0 :: ts). intros l.
    induction l as [|t l IH]; simpl; constructor; [|exact IH].
    destruct (Segment_window t w) as (lo & hi & E & Hlo & Hhi).
    rewrite E. simpl. auto.
  - split; [discriminate | reflexivity].
  - split; [reflexivity|]. split; [discriminate | reflexivity].
Qed.

(** ** [veto_all] on an arbitrary dict *)




(** ** Dictionaries keyed by grid cells *)

Lemma cell_eqb_refl (p : cell) : cell_eqb p p = true.
Proof. unfold cell_eqb. now rewrite !Qeq_bool_refl. Qed.

Lemma cell_eqb_iff (p q : cell) :
  cell_eqb p q = true <-> (fst p == fst q)%Q /\ (snd p == snd q)%Q.
Proof.
  unfold cell_eqb. rewrite andb_true_iff, !Qeq_bool_iff. reflexivity.
Qed.

Lemma cell_eqb_sym (p q : cell) : cell_eqb p q = true -> cell_eqb q p = true.
Proof.
  rewrite !cell_eqb_iff. intros [H1 H2]. split; symmetry; assumption.
Qed.

Lemma cell_eqb_trans (p q r : cell) :
  cell_eqb p q = true -> cell_eqb q r = true -> cell_eqb p r = true.
Proof.
  rewrite !cell_eqb_iff. intros [H1 H2] [H3 H4].
  split; etransitivity; eassumption.
Qed.

Lemma cell_get_In (V : Type) (d : celldict V) (p : cell) (v : V) :
  cell_get d p = Some v -> exists q, In (q, v) d /\ cell_eqb q p = true.
Proof.
  induction d as [|[q w] r IH]; simpl; [discriminate|].
  destruct (cell_eqb q p) eqn:E.
  - intros H. injection H as <-. exists q. auto.
  - intros H. destruct (IH H) as (q' & Hin & Hq). exists q'. auto.
Qed.

Lemma cell_get_eqb (V : Type) (d : celldict V) (p q : cell) :
  cell_eqb p q = true -> cell_get d p = cell_get d q.
Proof.
  intros Hpq. induction d as [|[k w] r IH]; simpl; [reflexivity|].
  destruct (cell_eqb k p) eqn:E1, (cell_eqb k q) eqn:E2; auto.
  - rewrite (cell_eqb_trans _ _ _ E1 Hpq) in E2. discriminate.
  - rewrite (cell_eqb_trans _ _ _ E2 (cell_eqb_sym _ _ Hpq)) in E1. discriminate.
Qed.

Lemma cell_get_set (V : Type) (d : celldict V) (p q : cell) (v : V) :
  cell_get (cell_set d p v) q =
  if cell_eqb p q then Some v else cell_get d q.
Proof.
  induction d as [|[k w] r IH]; simpl.
  - destruct (cell_eqb p q); reflexivity.
  - destruct (cell_eqb k p) eqn:E1; simpl.
    + destruct (cell_eqb k q) eqn:E2, (cell_eqb p q) eqn:E3; auto.
      * rewrite (cell_eqb_trans _ _ _ (cell_eqb_sym _ _ E1) E2) in E3. discriminate.
      * rewrite (cell_eqb_trans _ _ _ E1 E3) in E2. discriminate.
    + rewrite IH.
      destruct (cell_eqb k q) eqn:E2, (cell_eqb p q) eqn:E3; auto.
      rewrite (cell_eqb_trans _ _ _ E2 (cell_eqb_sym _ _ E3)) in E1. discriminate.
Qed.

Lemma cell_set_keys (V : Type) (d : celldict V) (p : cell) (v : V) :
  cell_get d p <> None -> map fst (cell_set d p v) = map fst d.
Proof.
  induction d as [|[k w] r IH]; simpl; [congruence|].
  destruct (cell_eqb k p); simpl; [reflexivity|].
  intros H. now rewrite IH.
Qed.

Lemma cell_set_In (V : Type) (d : celldict V) (p q : cell) (v x : V) :
  In (q, x) (cell_set d p v) ->
  In (q, x) d \/ (cell_eqb q p = true /\ x = v).
Proof.
  induction d as [|[k w] r IH]; simpl.
  - intros [E | []]. injection E as <- <-. right. split; [apply cell_eqb_refl | reflexivity].
  - destruct (cell_eqb k p) eqn:E1; simpl.
    + intros [E | H]; [|auto].
      injection E as <- <-. right. auto.
    + intros [E | H]; [auto|].
      destruct (IH H) as [H' | H']; auto.
Qed.

Lemma cell_set_key_In (V : Type) (d : celldict V) (p k : cell) (v : V) :
  In k (map fst (cell_set d p v)) -> In k (map fst d) \/ k = p.
Proof.
  induction d as [|[q w] r IH]; simpl.
  - intros [E | []]. now right.
  - destruct (cell_eqb q p); simpl; [auto|].
    intros [E | H]; [auto|]. destruct (IH H); auto.
Qed.

Lemma cell_set_uniq (V : Type) (d : celldict V) (p : cell) (v : V) :
  uniq_keys (map fst d) -> uniq_keys (map fst (cell_set d p v)).
Proof.
  induction d as [|[q w] r IH]; simpl.
  - intros _. split; [intros k' []| exact I].
  - intros [Hq Hr]. destruct (cell_eqb q p) eqn:E; simpl.
    + split; assumption.
    + split; [|now apply IH].
      intros k' Hk'. apply cell_set_key_In in Hk' as [Hk' | ->]; auto.
Qed.

Lemma cell_dict_of_uniq (V : Type) (ps : list cell) (v : V) :
  uniq_keys (map fst (cell_dict_of ps v)).
Proof.
  unfold cell_dict_of.
  assert (H : forall d, uniq_keys (map fst d) ->
                        uniq_keys (map fst (fold_left (fun d p => cell_set d p v) ps d))).
  { induction ps as [|p r IH]; intros d Hd; simpl; [exact Hd|].
    apply IH. now apply cell_set_uniq. }
  apply H. exact I.
Qed.

Lemma cell_dict_of_values (V : Type) (ps : list cell) (v : V) :
  forall p x, In (p, x) (cell_dict_of ps v) -> x = v.
Proof.
  unfold cell_dict_of.
  assert (H : forall d, (forall p x, In (p, x) d -> x = v) ->
                        forall p x, In (p, x) (fold_left (fun d p => cell_set d p v) ps d) ->
                                    x = v).
  { induction ps as [|q r IH]; intros d Hd; simpl; [exact Hd|].
    apply IH. intros p x Hin.
    apply cell_set_In in Hin as [Hin | [_ E]]; [now apply (Hd p) | exact E]. }
  apply H. intros p x [].
Qed.

(** ** Counting dictionaries *)

Lemma cnt_incr (d : countdict) (c c' : ChannelId) :
  cnt (count_incr d c) c' = cnt d c' + (if String.eqb c c' then 1 else 0).
Proof.
  unfold cnt. induction d as [|[k n] r IH]; simpl.
  - destruct (String.eqb c c'); reflexivity.
  - destruct (String.eqb_spec k c) as [-> | Hkc]; simpl.
    + destruct (String.eqb_spec c c'); lia.
    + destruct (String.eqb_spec k c') as [-> | Hkc'].
      * destruct (String.eqb_spec c c'); [congruence | lia].
      * exact IH.
Qed.

Lemma count_up_bump (coincs : celldict countdict) (channels : celldict chanset) :
  count_up coincs channels =
  fold_left (fun co pc => fold_left (fun co c => bump co (fst pc) c) (snd pc) co)
            channels coincs.
Proof.
  unfold count_up. revert coincs.
  induction channels as [|[p cset] r IH]; intros coincs; simpl; [reflexivity|].
  apply IH.
Qed.

Lemma bump_keys (coincs : celldict countdict) (p : cell) (c : ChannelId) :
  map fst (bump coincs p c) = map fst coincs.
Proof.
  unfold bump. destruct (cell_get coincs p) eqn:E; [|reflexivity].
  apply cell_set_keys. congruence.
Qed.

Lemma count_up_keys (coincs : celldict countdict) (channels : celldict chanset) :
  map fst (count_up coincs channels) = map fst coincs.
Proof.
  rewrite count_up_bump. revert coincs.
  induction channels as [|[p cset] r IH]; intros coincs; simpl; [reflexivity|].
  rewrite IH. clear IH. revert coincs.
  induction cset as [|c cs IHc]; intros coincs; simpl; [reflexivity|].
  rewrite IHc. apply bump_keys.
Qed.

Lemma count_of_bump (coincs : celldict countdict) (p : cell) (c' : ChannelId)
  (w s : Q) (c : ChannelId) :
  count_of (bump coincs p c') w s c <=
  count_of coincs w s c + (if cell_eqb p (w, s) && String.eqb c' c then 1 else 0).
Proof.
  unfold bump. destruct (cell_get coincs p) as [d|] eqn:E; [|lia].
  unfold count_of. rewrite cell_get_set.
  destruct (cell_eqb p (w, s)) eqn:Ep; simpl.
  - rewrite <- (cell_get_eqb coincs _ _ Ep), E.
    pose proof (cnt_incr d c' c) as H. unfold cnt in H. rewrite H.
    destruct (String.eqb c' c); lia.
  - lia.
Qed.

Lemma count_up_le (channels : celldict chanset) (w s : Q) (c : ChannelId) :
  forall coincs,
    count_of (count_up coincs channels) w s c <=
    count_of coincs w s c + hits channels (w, s) c.
Proof.
  intros coincs. rewrite count_up_bump. revert coincs.
  induction channels as [|[p cset] r IH]; intros coincs; simpl.
  - unfold hits. simpl. lia.
  - eapply Nat.le_trans; [apply IH|].
    unfold hits. simpl.
    fold (hits r (w, s) c).
    assert (Hin : forall co,
               count_of (fold_left (fun co c0 => bump co p c0) cset co) w s c <=
               count_of co w s c +
               (if cell_eqb p (w, s) then count_occ string_dec cset c else 0)).
    { induction cset as [|c0 cs IHc]; intros co; simpl.
      - destruct (cell_eqb p (w, s)); lia.
      - eapply Nat.le_trans; [apply IHc|].
        pose proof (count_of_bump co p c0 w s c) as Hb.
        destruct (cell_eqb p (w, s)); simpl in Hb.
        + destruct (string_dec c0 c) as [-> | Hne].
          * rewrite String.eqb_refl in Hb. lia.
          * destruct (String.eqb_spec c0 c); [contradiction | lia].
        + lia. }
    specialize (Hin coincs). lia.
Qed.

Lemma hits_zero (channels : celldict chanset) (p : cell) (c : ChannelId) :
  (forall k, In k (map fst channels) -> cell_eqb k p = false) ->
  hits channels p c = 0.
Proof.
  unfold hits. induction channels as [|[k cs] r IH]; intros H; simpl; [reflexivity|].
  rewrite (H k) by (simpl; auto). rewrite IH; [reflexivity|].
  intros k' Hk'. apply H. simpl. auto.
Qed.

Lemma hits_le_member (channels : celldict chanset) (p : cell) (c : ChannelId) :
  uniq_keys (map fst channels) ->
  Forall (fun pc => NoDup (snd pc)) channels ->
  hits channels p c <= if chan_member channels p c then 1 else 0.
Proof.
  induction channels as [|[k cs] r IH]; intros Hu Hn; simpl; [unfold hits; simpl; lia|].
  destruct Hu as [Hk Hu]. inversion Hn as [|? ? Hcs Hn']; subst. simpl in Hcs.
  specialize (IH Hu Hn').
  unfold hits. simpl. fold (hits r p c).
  destruct (cell_eqb k p) eqn:E; simpl.
  - rewrite (hits_zero r p c).
    + pose proof (proj1 (NoDup_count_occ string_dec cs) Hcs c) as Hc.
      destruct (existsb (String.eqb c) cs) eqn:Ex; simpl; [lia|].
      assert (Hz : count_occ string_dec cs c = 0).
      { apply count_occ_not_In. intros Hin.
        assert (existsb (String.eqb c) cs = true).
        { apply existsb_exists. exists c. split; [exact Hin | apply String.eqb_refl]. }
        congruence. }
      rewrite Hz.
      destruct (existsb (fun pc => cell_eqb (fst pc) p && existsb (String.eqb c) (snd pc)) r);
        lia.
    + intros k' Hk'. destruct (cell_eqb k' p) eqn:E'; [|reflexivity].
      pose proof (Hk k' Hk') as F. simpl in F.
      rewrite (cell_eqb_trans _ _ _ E (cell_eqb_sym _ _ E')) in F. discriminate.
  - exact IH.
Qed.

(** ** Windows around a primary event, as computed *)

Lemma xQ_leb_trans (a a' : F64.xfloat) (x : Q) :
  F64.x_leb a' a = true -> F64.xQ_leb a x = true -> F64.xQ_leb a' x = true.
Proof.
  destruct a as [q| |], a' as [q'| |]; simpl; try discriminate; auto.
  intros H1 H2. apply Qle_bool_iff. qbool. lra.
Qed.

Lemma Qx_leb_trans (b b' : F64.xfloat) (x : Q) :
  F64.x_leb b b' = true -> F64.Qx_leb x b = true -> F64.Qx_leb x b' = true.
Proof.
  destruct b as [q| |], b' as [q'| |]; simpl; try discriminate; auto.
  intros H1 H2. apply Qle_bool_iff. qbool. lra.
Qed.

Lemma x_leb_total (a b : F64.xfloat) :
  F64.x_leb a b = false -> F64.x_leb b a = true.
Proof.
  destruct a as [q| |], b as [q'| |]; simpl; try discriminate; auto.
  intros H. apply Qle_bool_iff. qbool. lra.
Qed.

(** [Segment] orders its end points, so membership does not depend on the
    order they were given in. *)
Lemma in_segment_Segment (a b : F64.xfloat) (x : Q) :
  F64.in_segment (F64.Segment a b) x = true <->
  (F64.xQ_leb a x = true /\ F64.Qx_leb x b = true) \/
  (F64.xQ_leb b x = true /\ F64.Qx_leb x a = true).
Proof.
  unfold F64.Segment, F64.in_segment.
  destruct (F64.x_leb a b) eqn:E; simpl; rewrite andb_true_iff.
  - split; [now left|]. intros [H | [H1 H2]]; [exact H|]. split.
    + exact (@xQ_leb_trans _ _ _ E H1).
    + exact (@Qx_leb_trans _ _ _ E H2).
  - apply x_leb_total in E.
    split; [now right|]. intros [[H1 H2] | H]; [|exact H]. split.
    + exact (@xQ_leb_trans _ _ _ E H1).
    + exact (@Qx_leb_trans _ _ _ E H2).
Qed.

Section ComputedWindows.

Variable rnd : Q -> F64.xfloat.
Variable half : Q -> Q.
Variable sort_time : table -> table.

Hypothesis Hrnd : keeps_order rnd.
Hypothesis Hhalf : halves half.
Hypothesis Hperm : forall l, Permutation (sort_time l) l.

(** Two numbers that are equal give the same window. *)
Lemma in_window_eq (t w w' x : Q) :
  (w == w')%Q ->
  F64.in_segment (F64.around rnd half t w) x =
  F64.in_segment (F64.around rnd half t w') x.
Proof.
  intros Hw.
  assert (H1 : (half w <= half w')%Q) by (apply (proj2 Hhalf); lra).
  assert (H2 : (half w' <= half w)%Q) by (apply (proj2 Hhalf); lra).
  assert (La : F64.x_leb (rnd (t - half w)%Q) (rnd (t - half w')%Q) = true)
    by (apply Hrnd; lra).
  assert (Lb : F64.x_leb (rnd (t - half w')%Q) (rnd (t - half w)%Q) = true)
    by (apply Hrnd; lra).
  assert (Ua : F64.x_leb (rnd (t + half w)%Q) (rnd (t + half w')%Q) = true)
    by (apply Hrnd; lra).
  assert (Ub : F64.x_leb (rnd (t + half w')%Q) (rnd (t + half w)%Q) = true)
    by (apply Hrnd; lra).
  apply bool_eq_iff. unfold F64.around. rewrite !in_segment_Segment.
  split; (intros [[A B] | [A B]]; [left | right]; split);
    first [ exact (@xQ_leb_trans _ _ _ La A) | exact (@xQ_leb_trans _ _ _ Lb A)
          | exact (@xQ_leb_trans _ _ _ Ua A) | exact (@xQ_leb_trans _ _ _ Ub A)
          | exact (@Qx_leb_trans _ _ _ La B) | exact (@Qx_leb_trans _ _ _ Lb B)
          | exact (@Qx_leb_trans _ _ _ Ua B) | exact (@Qx_leb_trans _ _ _ Ub B) ].
Qed.

(** A wider window that is not negative contains the narrower one: both
    end points move outwards, or stay, when they are rounded. *)
Lemma in_window_wider (t w w' x : Q) :
  (0 <= w)%Q -> (w <= w')%Q ->
  F64.in_segment (F64.around rnd half t w) x = true ->
  F64.in_segment (F64.around rnd half t w') x = true.
Proof.
  intros Hw Hle.
  pose proof (halves_nonneg Hhalf Hw) as H0.
  assert (H1 : (half w <= half w')%Q) by (apply (proj2 Hhalf); exact Hle).
  assert (L : F64.x_leb (rnd (t - half w')%Q) (rnd (t - half w)%Q) = true)
    by (apply Hrnd; lra).
  assert (M : F64.x_leb (rnd (t - half w)%Q) (rnd (t + half w)%Q) = true)
    by (apply Hrnd; lra).
  assert (U : F64.x_leb (rnd (t + half w)%Q) (rnd (t + half w')%Q) = true)
    by (apply Hrnd; lra).
  unfold F64.around. rewrite !in_segment_Segment.
  intros [[A B] | [A B]]; left; split.
  - exact (@xQ_leb_trans _ _ _ L A).
  - exact (@Qx_leb_trans _ _ _ U B).
  - exact (@xQ_leb_trans _ _ _ L (@xQ_leb_trans _ _ _ M A)).
  - exact (@Qx_leb_trans _ _ _ U (@Qx_leb_trans _ _ _ M B)).
Qed.

Lemma insert_Q_desc_Forall (P : Q -> Prop) (x : Q) (l : list Q) :
  P x -> Forall P l -> Forall P (insert_Q_desc x l).
Proof.
  intros Hx. induction 1 as [|y r Hy Hr IH]; simpl.
  - now repeat constructor.
  - destruct (Qltb y x); repeat constructor; auto.
Qed.

Lemma sorted_reverse_Forall (P : Q -> Prop) (l : list Q) :
  Forall P l -> Forall P (sorted_reverse l).
Proof.
  induction 1; simpl; [constructor|]. now apply insert_Q_desc_Forall.
Qed.

Lemma sorted_reverse_desc (l : list Q) :
  StronglySorted (fun x y => (y <= x)%Q) (sorted_reverse l).
Proof.
  induction l as [|x r IH]; simpl; [constructor|].
  revert IH. generalize (sorted_reverse r). intros l' Hs.
  induction l' as [|y r' IH']; simpl.
  - repeat constructor.
  - inversion Hs as [|? ? Hr Hy]; subst.
    destruct (Qltb y x) eqn:C; qbool.
    + constructor; [exact Hs|].
      constructor; [lra|].
      eapply Forall_impl; [|exact Hy]. simpl. intros z Hz. lra.
    + constructor; [now apply IH'|].
      now apply insert_Q_desc_Forall.
Qed.

(** When the elements that pass a test come first, the [k]-th element
    passes as long as [k] is below the number that pass. *)
Lemma filter_prefix (A : Type) (p : A -> bool) (d : A) (l : list A) :
  StronglySorted (fun x y => p y = true -> p x = true) l ->
  forall k, k < length (filter p l) -> p (nth k l d) = true.
Proof.
  induction 1 as [|x r Hr IH Hx]; intros k Hk; simpl in *; [lia|].
  destruct (p x) eqn:Px.
  - destruct k as [|k]; [exact Px|]. apply IH. simpl in Hk. lia.
  - exfalso.
    assert (E : filter p r = []).
    { clear - Hx Px. induction Hx as [|y r' Hy _ IH']; simpl; [reflexivity|].
      destruct (p y) eqn:Py; [|exact IH'].
      specialize (Hy eq_refl). congruence. }
    rewrite E in Hk. simpl in Hk. lia.
Qed.

Lemma filter_map_length (A B : Type) (f : B -> bool) (g : A -> B) (l : list A) :
  length (filter f (map g l)) = length (filter (fun x => f (g x)) l).
Proof.
  induction l as [|x r IH]; simpl; [reflexivity|].
  destruct (f (g x)); simpl; now rewrite IH.
Qed.

(** For windows sorted widest first and none negative, the [k]-th window
    contains the event whenever [k] is below the number of windows that
    contain it: this is what makes [windows[k]] the right key. *)
Lemma kth_window_contains (t te : Q) (W : list Q) (k : nat) :
  StronglySorted (fun x y => (y <= x)%Q) W ->
  Forall (fun w => (0 <= w)%Q) W ->
  k < length (filter (fun s => F64.in_segment s te)
                     (map (F64.around rnd half t) W)) ->
  F64.in_segment (F64.around rnd half t (nth k W 0%Q)) te = true.
Proof.
  intros Hs Hn Hk. rewrite filter_map_length in Hk.
  apply (filter_prefix
           (fun w => F64.in_segment (F64.around rnd half t w) te) 0%Q);
    [|exact Hk].
  clear Hk. induction Hs as [|x r Hr IH Hx]; constructor.
  - apply IH. now inversion Hn.
  - inversion Hn as [|? ? Hx0 Hr0]; subst.
    rewrite Forall_forall in *. intros y Hy Hin.
    apply (in_window_wider t te (Hr0 y Hy) (Hx y Hy) Hin).
Qed.

(** *** What the scan around one primary event records *)

Lemma chanset_add_In (s : chanset) (c c' : ChannelId) :
  In c' (chanset_add s c) -> In c' s \/ c' = c.
Proof.
  unfold chanset_add. destruct (existsb (String.eqb c) s); [auto|].
  intros H. apply in_app_or in H as [H | [H | []]]; auto.
Qed.

Lemma chanset_add_NoDup (s : chanset) (c : ChannelId) :
  NoDup s -> NoDup (chanset_add s c).
Proof.
  intros Hs. unfold chanset_add.
  destruct (existsb (String.eqb c) s) eqn:E; [exact Hs|].
  apply (Permutation_NoDup (Permutation_cons_append s c)).
  constructor; [|exact Hs].
  intros Hin.
  assert (existsb (String.eqb c) s = true).
  { apply existsb_exists. exists c. split; [exact Hin | apply String.eqb_refl]. }
  congruence.
Qed.

Lemma fold_left_invariant (A B : Type) (P : A -> Prop) (f : A -> B -> A)
  (l : list B) :
  (forall a b, In b l -> P a -> P (f a b)) ->
  forall a, P a -> P (fold_left f l a).
Proof.
  induction l as [|b r IH]; intros Hf a Ha; simpl; [exact Ha|].
  apply IH.
  - intros a' b' Hb'. apply Hf. now right.
  - apply Hf; [now left | exact Ha].
Qed.

Section ScanInvariant.

Variable T : table.
Variable primary : ChannelId.
Variables W S : list Q.
Variable t : Q.

Hypothesis HWdesc : StronglySorted (fun x y => (y <= x)%Q) W.
Hypothesis HWnn : Forall (fun w => (0 <= w)%Q) W.

Lemma record_inv (K : list cell) (chs : celldict chanset) (key : cell)
  (ev : event) :
  scan_inv rnd half T primary t K chs -> In ev T -> String.eqb (channel ev) primary = false ->
  F64.in_segment (F64.around rnd half t (fst key)) (time ev) = true ->
  Qle_bool (snd key) (snr ev) = true ->
  scan_inv rnd half T primary t K match cell_get chs key with
             | Some cs => cell_set chs key (chanset_add cs (channel ev))
             | None => chs
             end.
Proof.
  intros (Hk & Hn & Hs) Hev Hch Hwin Hsnr.
  destruct (cell_get chs key) as [cs|] eqn:E; [|repeat split; assumption].
  destruct (cell_get_In _ _ E) as (q0 & Hq0 & Eq0).
  assert (Hcs : NoDup cs).
  { rewrite Forall_forall in Hn. apply (Hn (q0, cs) Hq0). }
  split; [|split].
  - rewrite cell_set_keys; [exact Hk | congruence].
  - apply Forall_forall. intros [q x] Hin. simpl.
    apply cell_set_In in Hin as [Hin | [_ ->]].
    + rewrite Forall_forall in Hn. apply (Hn (q, x) Hin).
    + now apply chanset_add_NoDup.
  - intros q x c Hin Hc.
    apply cell_set_In in Hin as [Hin | [Eq ->]]; [now apply (Hs q x c)|].
    apply cell_eqb_iff in Eq as [Ew Es].
    apply chanset_add_In in Hc as [Hc | ->].
    + destruct (Hs q0 cs c Hq0 Hc) as (ev' & H1 & H2 & H3 & H4 & H5).
      apply cell_eqb_iff in Eq0 as [Ew0 Es0].
      exists ev'. repeat split; auto.
      * rewrite (in_window_eq t (time ev') (w := fst q) (w' := fst q0)); [exact H4|].
        now rewrite Ew, Ew0.
      * apply Qle_bool_iff. apply Qle_bool_iff in H5. lra.
    + exists ev. repeat split; auto.
      * rewrite (in_window_eq t (time ev) Ew). exact Hwin.
      * apply Qle_bool_iff. apply Qle_bool_iff in Hsnr. lra.
Qed.

Lemma add_if_coinc_inv (K : list cell) (chs chs' : celldict chanset)
  (ev : event) :
  scan_inv rnd half T primary t K chs -> In ev T ->
  F64.add_if_coinc primary W S
               (map (F64.around rnd half t) W) chs ev
    = Some chs' ->
  scan_inv rnd half T primary t K chs'.
Proof.
  intros Hinv Hev. unfold F64.add_if_coinc.
  destruct (String.eqb (channel ev) primary) eqn:Ech; [discriminate|].
  simpl. intros H. injection H as <-.
  apply fold_left_invariant; [|exact Hinv].
  intros a k Hk Ha.
  apply fold_left_invariant; [|exact Ha].
  intros a' s Hs Ha'.
  apply in_seq in Hk. apply filter_In in Hs as [_ Hs].
  apply record_inv; auto.
  simpl. apply kth_window_contains; auto. lia.
Qed.

Lemma scan_preserves (K : list cell) (evs : list event) :
  forall chs,
    scan_inv rnd half T primary t K chs -> incl evs T ->
    scan_inv rnd half T primary t K (F64.scan primary W S
                     (map (F64.around rnd half t) W)
                     evs chs).
Proof.
  induction evs as [|ev r IH]; intros chs Hinv Hincl; simpl; [exact Hinv|].
  destruct (F64.add_if_coinc primary W S _ chs ev) as [chs'|] eqn:E; [|exact Hinv].
  apply IH.
  - apply (@add_if_coinc_inv K chs chs' ev Hinv (Hincl ev (or_introl eq_refl)) E).
  - intros x Hx. apply Hincl. now right.
Qed.

End ScanInvariant.

(** *** [find_all_coincidences] never overcounts *)

Lemma existsb_perm (A : Type) (f : A -> bool) (l l' : list A) :
  Permutation l l' -> existsb f l = existsb f l'.
Proof.
  induction 1 as [| x l l' _ IH | x y l | l l' l'' _ IH1 _ IH2]; simpl.
  - reflexivity.
  - now rewrite IH.
  - destruct (f x), (f y); reflexivity.
  - now rewrite IH1.
Qed.

Lemma filter_length_le (A : Type) (p q : A -> bool) (l : list A) :
  (forall x, p x = true -> q x = true) ->
  length (filter p l) <= length (filter q l).
Proof.
  intros H. induction l as [|x r IH]; simpl; [lia|].
  destruct (p x) eqn:Px.
  - rewrite (H x Px). simpl. lia.
  - destruct (q x); simpl; lia.
Qed.

Lemma firstn_snoc (A : Type) (l : list A) :
  forall n x, nth_error l n = Some x -> firstn (S n) l = firstn n l ++ [x].
Proof.
  induction l as [|y r IH]; intros [|n] x H; simpl in *; try discriminate.
  - now injection H as ->.
  - f_equal. now apply IH.
Qed.

Lemma firstn_incl (A : Type) (n : nat) (l : list A) : incl (firstn n l) l.
Proof.
  intros x Hx. rewrite <- (firstn_skipn n l). apply in_or_app. now left.
Qed.

Lemma skipn_incl (A : Type) (n : nat) (l : list A) : incl (skipn n l) l.
Proof.
  intros x Hx. rewrite <- (firstn_skipn n l). apply in_or_app. now right.
Qed.

Lemma count_of_fresh (ps : list cell) (w s : Q) (c : ChannelId) :
  count_of (cell_dict_of ps ([] : countdict)) w s c = 0.
Proof.
  unfold count_of.
  destruct (cell_get (cell_dict_of ps ([] : countdict)) (w, s)) as [d|] eqn:E;
    [|reflexivity].
  destruct (cell_get_In _ _ E) as (q & Hq & _).
  now rewrite (cell_dict_of_values _ _ _ _ Hq).
Qed.

Lemma chan_member_neighbour (T : table) (primary : ChannelId) (x : event)
  (channels : celldict chanset) (w s : Q) (c : ChannelId) :
  sound rnd half T primary (time x) channels ->
  String.eqb (channel x) primary = true ->
  chan_member channels (w, s) c = true ->
  coincident_primary rnd half T primary c w s x = true.
Proof.
  intros Hs Hx Hm. unfold chan_member in Hm.
  apply existsb_exists in Hm as ([p cset] & Hin & H). simpl in H.
  apply andb_true_iff in H as [Hp Hc].
  apply existsb_exists in Hc as (c' & Hc' & Ec).
  apply String.eqb_eq in Ec. subst c'.
  destruct (Hs p cset c Hin Hc') as (ev & H1 & H2 & H3 & H4 & H5).
  apply cell_eqb_iff in Hp as [Ew Es]. simpl in Ew, Es.
  unfold coincident_primary. rewrite Hx, H3. simpl.
  unfold F64.has_neighbour. apply existsb_exists. exists ev. split; [exact H1|].
  rewrite H2, String.eqb_refl. simpl.
  rewrite <- (in_window_eq (time x) (time ev) Ew), H4. simpl.
  apply Qle_bool_iff. apply Qle_bool_iff in H5. lra.
Qed.

(** *** [find_all_coincidences]: the exact count *)

Lemma scan_until_primary (primary : ChannelId) (W Ss : list Q)
  (segs : list F64.xsegment) (evs : list event) :
  forall chs,
    F64.scan primary W Ss segs evs chs =
    F64.scan primary W Ss segs (until_primary primary evs) chs.
Proof.
  induction evs as [|ev r IH]; intros chs; simpl; [reflexivity|].
  destruct (String.eqb (channel ev) primary) eqn:E.
  - unfold F64.add_if_coinc. now rewrite E.
  - simpl. destruct (F64.add_if_coinc primary W Ss segs chs ev); [apply IH | reflexivity].
Qed.

Lemma cell_get_present (V : Type) (d : celldict V) (p : cell) :
  cell_get d p <> None <-> exists k, In k (map fst d) /\ cell_eqb k p = true.
Proof.
  induction d as [|[k v] r IH]; simpl.
  - split; [congruence | intros (k & [] & _)].
  - destruct (cell_eqb k p) eqn:E.
    + split; [intros _; exists k; auto | congruence].
    + rewrite IH. split.
      * intros (k' & Hk' & E'). exists k'. auto.
      * intros (k' & [<- | Hk'] & E'); [congruence | exists k'; auto].
Qed.

Lemma cell_get_present_keys (V V' : Type) (d : celldict V) (d' : celldict V')
  (p : cell) :
  map fst d = map fst d' -> cell_get d p <> None -> cell_get d' p <> None.
Proof.
  intros Hk. rewrite !cell_get_present, Hk. auto.
Qed.

Lemma cell_dict_of_present (V : Type) (ps : list cell) (v : V) (p : cell) :
  In p ps -> cell_get (cell_dict_of ps v) p <> None.
Proof.
  unfold cell_dict_of.
  assert (H : forall d, In p ps \/ cell_get d p <> None ->
                        cell_get (fold_left (fun d q => cell_set d q v) ps d) p <> None).
  { induction ps as [|q r IH]; intros d Hd; simpl.
    - destruct Hd as [[] | Hd]. exact Hd.
    - apply IH.
      destruct Hd as [[-> | Hin] | Hd]; [right | now left | right].
      + rewrite cell_get_set, cell_eqb_refl. discriminate.
      + rewrite cell_get_set. destruct (cell_eqb q p); [discriminate | exact Hd]. }
  intros Hin. apply H. now left.
Qed.

Lemma insert_Q_In (x y : Q) (l : list Q) :
  In y (insert_Q x l) <-> y = x \/ In y l.
Proof.
  induction l as [|z r IH]; simpl; [intuition|].
  destruct (Qltb x z); simpl; rewrite ?IH; intuition.
Qed.

Lemma sorted_In (y : Q) (l : list Q) : In y (sorted l) <-> In y l.
Proof.
  induction l as [|x r IH]; simpl; [reflexivity|].
  rewrite insert_Q_In, IH. intuition.
Qed.

Lemma insert_Q_desc_In (x y : Q) (l : list Q) :
  In y (insert_Q_desc x l) <-> y = x \/ In y l.
Proof.
  induction l as [|z r IH]; simpl; [intuition|].
  destruct (Qltb z x); simpl; rewrite ?IH; intuition.
Qed.

Lemma sorted_reverse_In (y : Q) (l : list Q) : In y (sorted_reverse l) <-> In y l.
Proof.
  induction l as [|x r IH]; simpl; [reflexivity|].
  rewrite insert_Q_desc_In, IH. intuition.
Qed.

Lemma in_product (w s : Q) (ws ss : list Q) :
  In w ws -> In s ss -> In (w, s) (product ws ss).
Proof.
  intros Hw Hs. unfold product. apply in_flat_map. exists w. split; [exact Hw|].
  apply in_map_iff. exists s. auto.
Qed.

(** The converse of [filter_prefix]. *)
Lemma filter_prefix_conv (A : Type) (p : A -> bool) (d : A) (l : list A) :
  StronglySorted (fun x y => p y = true -> p x = true) l ->
  forall k, k < length l -> p (nth k l d) = true -> k < length (filter p l).
Proof.
  induction 1 as [|x r Hr IH Hx]; intros k Hk Hp; simpl in *; [lia|].
  destruct k as [|k].
  - rewrite Hp. simpl. lia.
  - assert (Px : p x = true).
    { rewrite Forall_forall in Hx. apply (Hx (nth k r d)); [|exact Hp].
      apply nth_In. lia. }
    rewrite Px. simpl. apply -> Nat.succ_lt_mono. apply IH; [lia | exact Hp].
Qed.

Lemma window_index (t te : Q) (W : list Q) (k : nat) :
  StronglySorted (fun x y => (y <= x)%Q) W ->
  Forall (fun w => (0 <= w)%Q) W ->
  k < length W ->
  F64.in_segment (F64.around rnd half t (nth k W 0%Q)) te = true ->
  k < length (filter (fun s => F64.in_segment s te)
                     (map (F64.around rnd half t) W)).
Proof.
  intros Hs Hn Hk Hin. rewrite filter_map_length.
  apply (filter_prefix_conv
           (fun w => F64.in_segment (F64.around rnd half t w) te) 0%Q);
    [|exact Hk|exact Hin].
  clear Hk Hin. induction Hs as [|x r Hr IH Hx]; constructor.
  - apply IH. now inversion Hn.
  - inversion Hn as [|? ? Hx0 Hr0]; subst.
    rewrite Forall_forall in *. intros y Hy Hin.
    apply (in_window_wider t te (Hr0 y Hy) (Hx y Hy) Hin).
Qed.

Lemma chanset_add_old (cs : chanset) (c c' : ChannelId) :
  In c cs -> In c (chanset_add cs c').
Proof.
  intros H. unfold chanset_add.
  destruct (existsb (String.eqb c') cs); [exact H | apply in_or_app; now left].
Qed.

Lemma chanset_add_new (cs : chanset) (c : ChannelId) : In c (chanset_add cs c).
Proof.
  unfold chanset_add. destruct (existsb (String.eqb c) cs) eqn:E.
  - apply existsb_exists in E as (c' & Hc' & Ec).
    apply String.eqb_eq in Ec. now subst.
  - apply in_or_app. right. now left.
Qed.

Lemma record_present (chs : celldict chanset) (key q : cell) (c : ChannelId) :
  cell_get chs q <> None -> cell_get (record chs key c) q <> None.
Proof.
  intros H. unfold record. destruct (cell_get chs key); [|exact H].
  rewrite cell_get_set. destruct (cell_eqb key q); [discriminate | exact H].
Qed.

Lemma record_mono (chs : celldict chanset) (key q : cell) (c c' : ChannelId) :
  recorded chs q c -> recorded (record chs key c') q c.
Proof.
  intros (cs & Hg & Hc). unfold record, recorded.
  destruct (cell_get chs key) as [cs'|] eqn:E; [|exists cs; auto].
  rewrite cell_get_set. destruct (cell_eqb key q) eqn:Eq.
  - rewrite (cell_get_eqb chs _ _ Eq), Hg in E. injection E as <-.
    exists (chanset_add cs c'). split; [reflexivity | now apply chanset_add_old].
  - exists cs. auto.
Qed.

Lemma record_hit (chs : celldict chanset) (key q : cell) (c : ChannelId) :
  cell_get chs key <> None -> cell_eqb key q = true ->
  recorded (record chs key c) q c.
Proof.
  intros Hp Eq. unfold record, recorded.
  destruct (cell_get chs key) as [cs|]; [|congruence].
  rewrite cell_get_set, Eq. exists (chanset_add cs c).
  split; [reflexivity | apply chanset_add_new].
Qed.

Lemma fold_left_hit (A B : Type) (Pre P : A -> Prop) (f : A -> B -> A)
  (l : list B) (b : B) :
  (forall a b', Pre a -> Pre (f a b')) ->
  (forall a b', P a -> P (f a b')) ->
  In b l -> (forall a, Pre a -> P (f a b)) ->
  forall a, Pre a -> P (fold_left f l a).
Proof.
  intros Hpre Hmono. induction l as [|x r IH]; intros Hin Hb a Ha; [contradiction|].
  simpl. destruct Hin as [-> | Hin].
  - apply fold_left_invariant; [intros; now apply Hmono | now apply Hb].
  - apply IH; auto.
Qed.

Section ScanComplete.

Variable primary : ChannelId.
Variables W Ss : list Q.
Variable t : Q.

Hypothesis HWdesc : StronglySorted (fun x y => (y <= x)%Q) W.
Hypothesis HWnn : Forall (fun w => (0 <= w)%Q) W.

(** What [add_if_coinc] does with an auxiliary event. *)
Lemma add_if_coinc_aux (chs : celldict chanset) (ev : event) :
  String.eqb (channel ev) primary = false ->
  F64.add_if_coinc primary W Ss
               (map (F64.around rnd half t) W) chs ev =
  Some (fold_left
          (fun chs k =>
             fold_left (fun chs s => record chs (nth k W 0%Q, s) (channel ev))
                       (filter (fun s => Qle_bool s (snr ev)) Ss) chs)
          (seq 0 (length (filter (fun s => F64.in_segment s (time ev))
                                 (map (F64.around rnd half t) W))))
          chs).
Proof.
  intros E. unfold F64.add_if_coinc. rewrite E. reflexivity.
Qed.

Lemma add_if_coinc_present (chs chs' : celldict chanset) (ev : event) (q : cell) :
  F64.add_if_coinc primary W Ss
               (map (F64.around rnd half t) W) chs ev
    = Some chs' ->
  cell_get chs q <> None -> cell_get chs' q <> None.
Proof.
  intros H Hp.
  destruct (String.eqb (channel ev) primary) eqn:E.
  - unfold F64.add_if_coinc in H. rewrite E in H. discriminate.
  - rewrite (add_if_coinc_aux chs ev E) in H. injection H as <-.
    apply fold_left_invariant; [|exact Hp].
    intros a k _ Ha. apply fold_left_invariant; [|exact Ha].
    intros a' s _ Ha'. now apply record_present.
Qed.

Lemma add_if_coinc_mono (chs chs' : celldict chanset) (ev : event) (q : cell)
  (c : ChannelId) :
  F64.add_if_coinc primary W Ss
               (map (F64.around rnd half t) W) chs ev
    = Some chs' ->
  recorded chs q c -> recorded chs' q c.
Proof.
  intros H Hp.
  destruct (String.eqb (channel ev) primary) eqn:E.
  - unfold F64.add_if_coinc in H. rewrite E in H. discriminate.
  - rewrite (add_if_coinc_aux chs ev E) in H. injection H as <-.
    apply fold_left_invariant; [|exact Hp].
    intros a k _ Ha. apply fold_left_invariant; [|exact Ha].
    intros a' s _ Ha'. now apply record_mono.
Qed.

Lemma add_if_coinc_hit (chs chs' : celldict chanset) (ev : event) (w s : Q) :
  F64.add_if_coinc primary W Ss
               (map (F64.around rnd half t) W) chs ev
    = Some chs' ->
  cell_get chs (w, s) <> None ->
  In w W -> In s Ss ->
  F64.in_segment (F64.around rnd half t w) (time ev) = true ->
  Qle_bool s (snr ev) = true ->
  recorded chs' (w, s) (channel ev).
Proof.
  intros H Hp Hw Hs Hin Hsnr.
  destruct (String.eqb (channel ev) primary) eqn:E.
  - unfold F64.add_if_coinc in H. rewrite E in H. discriminate.
  - rewrite (add_if_coinc_aux chs ev E) in H. injection H as <-.
    destruct (In_nth _ _ 0%Q Hw) as (k0 & Hk0 & Enth).
    apply (fold_left_hit (fun a => cell_get a (w, s) <> None)
                         (fun a => recorded a (w, s) (channel ev))) with (b := k0).
    + intros a k Ha. apply fold_left_invariant; [|exact Ha].
      intros a' s' _ Ha'. now apply record_present.
    + intros a k Ha. apply fold_left_invariant; [|exact Ha].
      intros a' s' _ Ha'. now apply record_mono.
    + apply in_seq. split; [lia|]. simpl.
      apply window_index; auto. now rewrite Enth.
    + intros a Ha.
      apply (fold_left_hit (fun a => cell_get a (w, s) <> None)
                           (fun a => recorded a (w, s) (channel ev))) with (b := s).
      * intros a' s' Ha'. now apply record_present.
      * intros a' s' Ha'. now apply record_mono.
      * apply filter_In. auto.
      * intros a' Ha'. rewrite Enth. apply record_hit; [exact Ha' | apply cell_eqb_refl].
      * exact Ha.
    + exact Hp.
Qed.

Lemma scan_present (evs : list event) (q : cell) :
  forall chs,
    cell_get chs q <> None ->
    cell_get (F64.scan primary W Ss
                   (map (F64.around rnd half t) W) evs chs) q
    <> None.
Proof.
  induction evs as [|ev r IH]; intros chs Hp; simpl; [exact Hp|].
  destruct (F64.add_if_coinc primary W Ss _ chs ev) as [chs'|] eqn:E; [|exact Hp].
  apply IH. eapply add_if_coinc_present; eassumption.
Qed.

Lemma scan_mono (evs : list event) (q : cell) (c : ChannelId) :
  forall chs,
    recorded chs q c ->
    recorded (F64.scan primary W Ss
                   (map (F64.around rnd half t) W) evs chs) q c.
Proof.
  induction evs as [|ev r IH]; intros chs Hp; simpl; [exact Hp|].
  destruct (F64.add_if_coinc primary W Ss _ chs ev) as [chs'|] eqn:E; [|exact Hp].
  apply IH. eapply add_if_coinc_mono; eassumption.
Qed.

Lemma scan_hit (evs : list event) (ev : event) (w s : Q) :
  forall chs,
    cell_get chs (w, s) <> None ->
    In ev (until_primary primary evs) ->
    In w W -> In s Ss ->
    F64.in_segment (F64.around rnd half t w) (time ev) = true ->
    Qle_bool s (snr ev) = true ->
    recorded (F64.scan primary W Ss
                   (map (F64.around rnd half t) W) evs chs)
             (w, s) (channel ev).
Proof.
  induction evs as [|e r IH]; intros chs Hp Hev Hw Hs Hin Hsnr; simpl in *;
    [contradiction|].
  destruct (String.eqb (channel e) primary) eqn:E; [contradiction|].
  rewrite (add_if_coinc_aux chs e E).
  pose proof (add_if_coinc_aux chs e E) as Ea.
  destruct Hev as [-> | Hev].
  - apply scan_mono. eapply add_if_coinc_hit; eassumption.
  - apply IH; auto. eapply add_if_coinc_present; eassumption.
Qed.

End ScanComplete.

Lemma count_of_bump_eq (coincs : celldict countdict) (p : cell) (c' : ChannelId)
  (w s : Q) (c : ChannelId) :
  cell_get coincs p <> None ->
  count_of (bump coincs p c') w s c =
  count_of coincs w s c + (if cell_eqb p (w, s) && String.eqb c' c then 1 else 0).
Proof.
  intros Hp. unfold bump. destruct (cell_get coincs p) as [d|] eqn:E; [|congruence].
  unfold count_of. rewrite cell_get_set.
  destruct (cell_eqb p (w, s)) eqn:Ep; simpl.
  - rewrite <- (cell_get_eqb coincs _ _ Ep), E.
    pose proof (cnt_incr d c' c) as H. unfold cnt in H. exact H.
  - lia.
Qed.

Lemma count_up_eq (channels : celldict chanset) (w s : Q) (c : ChannelId) :
  forall coincs,
    map fst channels = map fst coincs ->
    count_of (count_up coincs channels) w s c =
    count_of coincs w s c + hits channels (w, s) c.
Proof.
  intros coincs Hk.
  assert (Hpres : forall p, In p (map fst channels) -> cell_get coincs p <> None).
  { intros p Hp. apply cell_get_present. exists p. rewrite <- Hk.
    split; [exact Hp | apply cell_eqb_refl]. }
  clear Hk. rewrite count_up_bump. revert coincs Hpres.
  induction channels as [|[p cset] r IH]; intros coincs Hpres; simpl.
  - unfold hits. simpl. lia.
  - assert (Hin : forall co,
               cell_get co p <> None ->
               map fst (fold_left (fun co c0 => bump co p c0) cset co) = map fst co /\
               count_of (fold_left (fun co c0 => bump co p c0) cset co) w s c =
               count_of co w s c +
               (if cell_eqb p (w, s) then count_occ string_dec cset c else 0)).
    { clear IH Hpres. induction cset as [|c0 cs IHc]; intros co Hp; simpl.
      - split; [reflexivity|]. destruct (cell_eqb p (w, s)); lia.
      - destruct (IHc (bump co p c0)) as [Hk1 Hc1].
        + apply (cell_get_present_keys co (bump co p c0) p); [|exact Hp].
          symmetry. apply bump_keys.
        + split; [now rewrite Hk1, bump_keys|].
          rewrite Hc1, (@count_of_bump_eq co p c0 w s c Hp).
          destruct (cell_eqb p (w, s)); simpl; [|lia].
          destruct (string_dec c0 c) as [-> | Hne].
          * rewrite String.eqb_refl. lia.
          * destruct (String.eqb_spec c0 c); [contradiction | lia]. }
    destruct (Hin coincs) as [Hk1 Hc1]; [apply Hpres; now left|].
    rewrite IH.
    + rewrite Hc1. unfold hits. simpl. lia.
    + intros q Hq.
      apply (cell_get_present_keys coincs
               (fold_left (fun co c0 => bump co p c0) cset coincs) q);
        [now symmetry|].
      apply Hpres. now right.
Qed.

Lemma hits_ge_member (channels : celldict chanset) (p : cell) (c : ChannelId) :
  chan_member channels p c = true -> 1 <= hits channels p c.
Proof.
  unfold chan_member, hits.
  induction channels as [|[k cs] r IH]; simpl; [discriminate|].
  intros H. apply orb_true_iff in H as [H | H].
  - apply andb_true_iff in H as [Hk Hc]. rewrite Hk.
    apply existsb_exists in Hc as (c' & Hc' & Ec).
    apply String.eqb_eq in Ec. subst c'.
    apply (count_occ_In string_dec) in Hc'. lia.
  - specialize (IH H). lia.
Qed.

Lemma recorded_member (channels : celldict chanset) (q : cell) (c : ChannelId) :
  recorded channels q c -> chan_member channels q c = true.
Proof.
  intros (cs & Hg & Hc). destruct (cell_get_In _ _ Hg) as (k & Hin & Ek).
  unfold chan_member. apply existsb_exists. exists (k, cs). split; [exact Hin|].
  simpl. rewrite Ek. simpl. apply existsb_exists. exists c.
  split; [exact Hc | apply String.eqb_refl].
Qed.

(** The sets one primary event ends with hold exactly the channels it can
    see before the next primary event on either side. *)
Lemma scans_member (T : table) (primary : ChannelId) (W Ss : list Q)
  (x : event) (n : nat) (chs0 : celldict chanset) (w s : Q) (c : ChannelId) :
  StronglySorted (fun a b => (b <= a)%Q) W ->
  Forall (fun a => (0 <= a)%Q) W ->
  In w W -> In s Ss ->
  cell_get chs0 (w, s) <> None ->
  Forall (fun pc => snd pc = []) chs0 ->
  String.eqb (channel x) primary = true ->
  chan_member
    (F64.scan primary W Ss
          (map (F64.around rnd half (time x)) W)
          (skipn (S n) T)
          (F64.scan primary W Ss
                (map (F64.around rnd half (time x)) W)
                (rev (firstn n T)) chs0))
    (w, s) c
  = F64.has_neighbour rnd half (reach primary T n) c w s x.
Proof.
  intros HW1 HW2 Hw Hs Hp He Hx.
  apply bool_eq_iff. split.
  - rewrite (scan_until_primary primary W Ss _ (skipn (S n) T)).
    rewrite (scan_until_primary primary W Ss _ (rev (firstn n T))).
    intros Hm.
    assert (Hinv : scan_inv rnd half (reach primary T n) primary (time x) (map fst chs0)
                     (F64.scan primary W Ss
                        (map (F64.around rnd half (time x)) W)
                        (until_primary primary (skipn (S n) T))
                        (F64.scan primary W Ss
                           (map (F64.around rnd half (time x)) W)
                           (until_primary primary (rev (firstn n T))) chs0))).
    { apply scan_preserves; auto.
      - apply scan_preserves; auto.
        + split; [reflexivity | split].
          * rewrite Forall_forall in *. intros pc Hpc. rewrite (He pc Hpc).
            constructor.
          * intros q cset c' Hin Hc'. rewrite Forall_forall in He.
            specialize (He (q, cset) Hin). simpl in He. subst cset. contradiction.
        + intros y Hy. unfold reach. apply in_or_app. now left.
      - intros y Hy. unfold reach. apply in_or_app. now right. }
    destruct Hinv as (_ & _ & Hsound).
    pose proof (@chan_member_neighbour (reach primary T n) primary x _ w s c
                  Hsound Hx Hm) as Hc.
    unfold coincident_primary in Hc.
    apply andb_true_iff in Hc as [_ Hc]. apply andb_true_iff in Hc as [_ Hc].
    exact Hc.
  - intros Hn. unfold F64.has_neighbour in Hn.
    apply existsb_exists in Hn as (ev & Hev & H).
    apply andb_true_iff in H as [H H3]. apply andb_true_iff in H as [H1 H2].
    apply String.eqb_eq in H1. subst c.
    apply recorded_member.
    unfold reach in Hev. apply in_app_or in Hev as [Hev | Hev].
    + apply scan_mono. apply scan_hit; auto.
    + apply scan_hit; auto. apply scan_present. exact Hp.
Qed.

Lemma find_all_coincidences_count (triggers : table) (primary : ChannelId)
  (snrs windows : list Q) (w s : Q) (c : ChannelId) :
  Forall (fun x => (0 <= x)%Q) windows -> In w windows -> In s snrs ->
  count_of (F64.find_all_coincidences rnd half sort_time triggers primary snrs windows) w s c =
  length (filter (seen_from rnd half (sort_time triggers) primary c w s)
                 (seq 0 (length (sort_time triggers)))).
Proof.
  intros Hnn Hw Hs. unfold F64.find_all_coincidences.
  set (T := sort_time triggers).
  set (W := sorted_reverse windows).
  set (Ss := sorted snrs).
  set (co0 := cell_dict_of (product W Ss) ([] : countdict)).
  match goal with
  | |- count_of (fold_left ?f _ _) _ _ _ = _ => set (step := f)
  end.
  assert (HW1 : StronglySorted (fun x y => (y <= x)%Q) W)
    by apply sorted_reverse_desc.
  assert (HW2 : Forall (fun x => (0 <= x)%Q) W)
    by now apply sorted_reverse_Forall.
  assert (HwW : In w W) by now apply sorted_reverse_In.
  assert (HsS : In s Ss) by now apply sorted_In.
  assert (Hloop : forall n, n <= length T ->
             uniq_keys (map fst (fold_left step (seq 0 n) co0)) /\
             map fst (fold_left step (seq 0 n) co0) = map fst co0 /\
             count_of (fold_left step (seq 0 n) co0) w s c =
             length (filter (seen_from rnd half T primary c w s) (seq 0 n))).
  { induction n as [|n IH]; intros Hn.
    - simpl. split; [apply cell_dict_of_uniq | split; [reflexivity|]].
      unfold co0. now rewrite count_of_fresh.
    - destruct IH as (Hu & Hk0 & Hc); [lia|].
      rewrite seq_S, fold_left_app. cbn [fold_left Nat.add].
      set (R := fold_left step (seq 0 n) co0) in *.
      destruct (nth_error T n) as [x|] eqn:Ex;
        [|apply nth_error_None in Ex; lia].
      rewrite filter_app, length_app.
      unfold step at 1. unfold step at 1. unfold step at 1.
      cbn [filter]. unfold seen_from at 2. rewrite Ex.
      destruct (String.eqb (channel x) primary) eqn:Ep; cbn [negb andb].
      + set (chs0 := map (fun kv : cell * countdict => (fst kv, ([] : chanset))) R).
        set (channels :=
               F64.scan primary W Ss
                    (map (F64.around rnd half (time x)) W)
                    (skipn (S n) T)
                    (F64.scan primary W Ss
                          (map (F64.around rnd half (time x)) W)
                          (rev (firstn n T)) chs0)).
        assert (Hk1 : map fst chs0 = map fst R).
        { unfold chs0. rewrite map_map. reflexivity. }
        assert (He : Forall (fun pc : cell * chanset => snd pc = []) chs0).
        { apply Forall_forall. intros pc Hpc.
          apply in_map_iff in Hpc as (kv & <- & _). reflexivity. }
        assert (Hinv : scan_inv rnd half T primary (time x) (map fst R) channels).
        { apply scan_preserves; auto; [|apply skipn_incl].
          apply scan_preserves; auto.
          - split; [exact Hk1 | split].
            + eapply Forall_impl; [|exact He].
              intros pc E. exact (eq_ind_r (fun l => NoDup l) (NoDup_nil _) E).
            + intros q cset c' Hin Hc'. rewrite Forall_forall in He.
              specialize (He (q, cset) Hin). simpl in He. subst cset.
              contradiction.
          - intros y Hy. apply in_rev in Hy. now apply firstn_incl in Hy. }
        destruct Hinv as (Hk & Hnd & _).
        assert (Hp0 : cell_get chs0 (w, s) <> None).
        { apply (cell_get_present_keys co0 chs0 (w, s)).
          - now rewrite Hk1, Hk0.
          - unfold co0. apply cell_dict_of_present. now apply in_product. }
        pose proof (@scans_member T primary W Ss x n chs0 w s c
                      HW1 HW2 HwW HsS Hp0 He Ep) as Hm.
        fold channels in Hm.
        split; [now rewrite count_up_keys|].
        split; [now rewrite count_up_keys|].
        rewrite count_up_eq; [|now rewrite Hk].
        rewrite Hc. f_equal.
        assert (Hle : hits channels (w, s) c <=
                      (if chan_member channels (w, s) c then 1 else 0)).
        { apply hits_le_member; [now rewrite Hk | exact Hnd]. }
        rewrite <- Hm.
        destruct (chan_member channels (w, s) c) eqn:Em.
        * apply hits_ge_member in Em. simpl. lia.
        * simpl. lia.
      + split; [exact Hu | split; [exact Hk0|]]. simpl. lia. }
  destruct (Hloop (length T) (Nat.le_refl _)) as (_ & _ & H). exact H.
Qed.

(** *** The bound on the count of one cell *)

Lemma never_overcounts_computed (triggers : table)
  (primary : ChannelId) (snrs windows : list Q) (w s : Q) (c : ChannelId)
  (Hnn : Forall (fun x => (0 <= x)%Q) windows) :
  count_of (F64.find_all_coincidences rnd half sort_time triggers primary snrs windows) w s c
    <= F64.spec_count rnd half triggers primary c w s /\
  count_of (F64.find_all_coincidences rnd half sort_time triggers primary snrs windows) w s primary = 0.
Proof.
  assert (Hmain : forall c0,
             count_of (F64.find_all_coincidences rnd half sort_time triggers primary snrs windows) w s c0
             <= length (filter (coincident_primary rnd half (sort_time triggers)
                                                   primary c0 w s)
                               (sort_time triggers))).
  { intros c0. unfold F64.find_all_coincidences.
    set (T := sort_time triggers).
    set (W := sorted_reverse windows).
    set (Ss := sorted snrs).
    set (co0 := cell_dict_of (product W Ss) ([] : countdict)).
    match goal with
    | |- count_of (fold_left ?f _ _) _ _ _ <= _ => set (step := f)
    end.
    assert (HW1 : StronglySorted (fun x y => (y <= x)%Q) W)
      by apply sorted_reverse_desc.
    assert (HW2 : Forall (fun x => (0 <= x)%Q) W)
      by now apply sorted_reverse_Forall.
    assert (Hloop : forall n, n <= length T ->
               uniq_keys (map fst (fold_left step (seq 0 n) co0)) /\
               count_of (fold_left step (seq 0 n) co0) w s c0 <=
               length (filter (coincident_primary rnd half T primary c0 w s) (firstn n T))).
    { induction n as [|n IH]; intros Hn.
      - simpl. split; [apply cell_dict_of_uniq|].
        unfold co0. rewrite count_of_fresh. lia.
      - destruct IH as [Hu Hc]; [lia|].
        rewrite seq_S, fold_left_app. cbn [fold_left Nat.add].
        set (R := fold_left step (seq 0 n) co0) in *.
        destruct (nth_error T n) as [x|] eqn:Ex;
          [|apply nth_error_None in Ex; lia].
        rewrite (firstn_snoc _ _ Ex), filter_app, length_app.
        unfold step at 1. unfold step at 1. rewrite Ex.
        destruct (negb (String.eqb (channel x) primary)) eqn:Ep.
        + split; [exact Hu | lia].
        + apply negb_false_iff in Ep.
          set (channels :=
                 F64.scan primary W Ss
                      (map (F64.around rnd half (time x)) W)
                      (skipn (S n) T)
                      (F64.scan primary W Ss
                            (map (F64.around rnd half (time x)) W)
                            (rev (firstn n T))
                            (map (fun kv => (fst kv, ([] : chanset))) R))).
          assert (Hinv : scan_inv rnd half T primary (time x) (map fst R) channels).
          { apply scan_preserves; auto; [|apply skipn_incl].
            apply scan_preserves; auto.
            - split; [|split].
              + rewrite map_map. reflexivity.
              + apply Forall_forall. intros pc Hpc.
                apply in_map_iff in Hpc as (kv & <- & _). constructor.
              + intros p cset c' Hin Hc'.
                apply in_map_iff in Hin as (kv & E & _).
                injection E as _ <-. contradiction.
            - intros y Hy. apply in_rev in Hy. now apply firstn_incl in Hy. }
          destruct Hinv as (Hk & Hnd & Hs).
          split; [now rewrite count_up_keys|].
          eapply Nat.le_trans; [apply count_up_le|].
          assert (Hh : hits channels (w, s) c0 <=
                       length (filter (coincident_primary rnd half T primary c0 w s) [x])).
          { eapply Nat.le_trans.
            - apply hits_le_member; [now rewrite Hk | exact Hnd].
            - destruct (chan_member channels (w, s) c0) eqn:Em; [|lia].
              simpl. rewrite (@chan_member_neighbour T primary x channels w s c0 Hs Ep Em).
              simpl. lia. }
          lia. }
    destruct (Hloop (length T) (Nat.le_refl _)) as [_ H].
    now rewrite firstn_all in H. }
  split.
  - eapply Nat.le_trans; [apply Hmain|].
    unfold F64.spec_count.
    rewrite (Permutation_length
               (filter_perm (fun x => String.eqb (channel x) primary
                                      && F64.has_neighbour rnd half triggers c w s x)
                            (Permutation_sym (Hperm triggers)))).
    apply filter_length_le. intros x Hx.
    unfold coincident_primary in Hx.
    apply andb_true_iff in Hx as [H1 H2]. apply andb_true_iff in H2 as [_ H2].
    rewrite H1. simpl. rewrite <- H2.
    unfold F64.has_neighbour. apply existsb_perm.
    symmetry. apply Hperm.
  - specialize (Hmain primary).
    assert (E : filter (coincident_primary rnd half (sort_time triggers) primary primary w s)
                       (sort_time triggers) = []).
    { clear. induction (sort_time triggers) as [|x r IH] at 2; simpl; [reflexivity|].
      unfold coincident_primary at 1.
      rewrite String.eqb_refl. simpl. rewrite andb_false_r. exact IH. }
    rewrite E in Hmain. simpl in Hmain. lia.
Qed.

End ComputedWindows.

Lemma sort_by_time_sorts : sorts_by_time sort_by_time.
Proof.
  intros l. split; [apply sort_by_time_perm | apply sort_by_time_sorted].
Qed.

(** Rows with strictly increasing times can be sorted in one way only. *)
Lemma sorted_perm_unique (l l' : table) :
  strictly_sorted l -> time_sorted l' -> Permutation l' l -> l' = l.
Proof.
  intros Hl. revert l'. induction Hl as [|x r Hr IH Hx]; intros l' Hs Hp.
  - apply Permutation_sym in Hp. now apply Permutation_nil in Hp.
  - destruct l' as [|y r'].
    + apply Permutation_nil in Hp. discriminate.
    + inversion Hs as [|? ? Hs' Hy]; subst.
      assert (E : y = x).
      { assert (Hin : In y (x :: r))
          by (apply (Permutation_in _ Hp); now left).
        destruct Hin as [E | Hin]; [now symmetry|].
        exfalso.
        assert (Hx' : In x (y :: r'))
          by (apply (Permutation_in _ (Permutation_sym Hp)); now left).
        rewrite Forall_forall in Hx, Hy.
        pose proof (Hx y Hin) as H1.
        destruct Hx' as [E | Hx']; [subst; lra|].
        pose proof (Hy x Hx') as H2. lra. }
      subst y. f_equal. apply IH; [exact Hs'|].
      now apply Permutation_cons_inv in Hp.
Qed.

(** X12.  Read on the windows as they are computed, with an arithmetic
    that keeps the order and no negative window, [find_all_coincidences]
    never overcounts: the count it stores for a cell and a channel is at
    most the number of primary events that have an event of that channel
    inside the computed window and at or above that threshold, whatever
    the content of the table and the order the sort leaves equal times in;
    and it never stores a count for the primary channel itself.  (It can
    undercount: see C1.) *)
Theorem find_all_coincidences_never_overcounts (rnd : Q -> F64.xfloat)
  (half : Q -> Q) (sort_time : table -> table) (triggers : table)
  (primary : ChannelId) (snrs windows : list Q) (w s : Q) (c : ChannelId)
  (Hrnd : keeps_order rnd) (Hhalf : halves half)
  (Hsort : sorts_by_time sort_time)
  (Hnn : Forall (fun x => (0 <= x)%Q) windows) :
  count_of (F64.find_all_coincidences rnd half sort_time
              triggers primary snrs windows) w s c
    <= F64.spec_count rnd half triggers primary c w s /\
  count_of (F64.find_all_coincidences rnd half sort_time
              triggers primary snrs windows) w s primary = 0.
Proof.
  apply never_overcounts_computed; auto.
  intros l. apply (proj1 (Hsort l)).
Qed.

Lemma find_all_coincidences_never_overcounts_witness :
  keeps_order round_int /\ halves exact_half /\ sorts_by_time sort_by_time /\
  Forall (fun x => (0 <= x)%Q) [3%Q] /\
  count_of (F64.find_all_coincidences round_int exact_half sort_by_time
              [auxA 12 10; prim 10] "P" [5%Q] [3%Q]) 3 5 "A" = 1 /\
  F64.spec_count round_int exact_half [auxA 12 10; prim 10] "P" "A" 3 5 = 1 /\
  spec_count [auxA 12 10; prim 10] "P" "A" 3 5 = 0.
Proof.
  assert (Hnn : Forall (fun x => (0 <= x)%Q) [3%Q]).
  { repeat constructor. lra. }
  split; [exact round_int_keeps_order|]. split; [exact exact_half_halves|].
  split; [exact sort_by_time_sorts|]. split; [exact Hnn|].
  pose proof (proj1 (@find_all_coincidences_never_overcounts
                       round_int exact_half sort_by_time
                       [auxA 12 10; prim 10] "P" [5%Q] [3%Q] 3 5 "A"
                       round_int_keeps_order exact_half_halves
                       sort_by_time_sorts Hnn)) as H.
  assert (E : F64.spec_count round_int exact_half [auxA 12 10; prim 10]
                "P" "A" 3 5 = 1) by reflexivity.
  rewrite E in H.
  split; [|split; [exact E | reflexivity]].
  assert (G : 1 <= count_of (F64.find_all_coincidences round_int exact_half
                               sort_by_time [auxA 12 10; prim 10] "P"
                               [5%Q] [3%Q]) 3 5 "A") by (vm_compute; lia).
  lia.
Defined.

(** X14.  What [find_all_coincidences] counts, exactly, read on the windows
    as they are computed.  For a table whose times are strictly
    increasing, an arithmetic that keeps the order, windows that are not
    negative, and a cell [(w, s)] made of one of the given windows and one
    of the given thresholds, the count stored for a channel [c] is the
    number of primary events that have an event of channel [c] inside the
    computed window [w] and at or above the threshold [s] among the events
    lying between that primary event and the nearest primary event on
    either side: an event beyond another primary event is never seen. *)
Theorem find_all_coincidences_exact (rnd : Q -> F64.xfloat) (half : Q -> Q)
  (sort_time : table -> table) (triggers : table) (primary : ChannelId)
  (snrs windows : list Q) (w s : Q) (c : ChannelId)
  (Hrnd : keeps_order rnd) (Hhalf : halves half)
  (Hsort : sorts_by_time sort_time)
  (Hsorted : strictly_sorted triggers)
  (Hnn : Forall (fun x => (0 <= x)%Q) windows)
  (Hw : In w windows) (Hs : In s snrs) :
  count_of (F64.find_all_coincidences rnd half sort_time
              triggers primary snrs windows) w s c =
  length (filter (seen_from rnd half triggers primary c w s)
                 (seq 0 (length triggers))).
Proof.
  rewrite (@find_all_coincidences_count rnd half sort_time Hrnd Hhalf
             triggers primary snrs windows w s c Hnn Hw Hs).
  destruct (Hsort triggers) as [Hp Hst].
  now rewrite (sorted_perm_unique Hsorted Hst Hp).
Qed.

Lemma find_all_coincidences_exact_witness :
  keeps_order round_int /\ halves exact_half /\ sorts_by_time sort_by_time /\
  strictly_sorted [prim 0; prim 10; auxA 12 10] /\
  count_of (F64.find_all_coincidences round_int exact_half sort_by_time
              [prim 0; prim 10; auxA 12 10] "P" [5%Q] [3; 30]%Q) 30 5 "A" = 1 /\
  F64.spec_count round_int exact_half [prim 0; prim 10; auxA 12 10]
                 "P" "A" 30 5 = 2.
Proof.
  assert (H : strictly_sorted [prim 0; prim 10; auxA 12 10]).
  { repeat constructor; simpl; lra. }
  assert (Hnn : Forall (fun x => (0 <= x)%Q) [3; 30]%Q).
  { repeat constructor; lra. }
  split; [exact round_int_keeps_order|]. split; [exact exact_half_halves|].
  split; [exact sort_by_time_sorts|]. split; [exact H|].
  split; [|reflexivity].
  rewrite (@find_all_coincidences_exact round_int exact_half sort_by_time
             [prim 0; prim 10; auxA 12 10] "P" [5%Q] [3; 30]%Q 30 5 "A"
             round_int_keeps_order exact_half_halves sort_by_time_sorts
             H Hnn (or_intror (or_introl eq_refl)) (or_introl eq_refl)).
  reflexivity.
Defined.

(** ** [find_max_significance]: what the returned winner and bests satisfy *)

Lemma Rsign_Gt_iff (x : R) : Rsign x = Gt <-> (0 < x)%R.
Proof.
  unfold Rsign. destruct (total_order_T x 0) as [[L | E] | G];
    split; intros H; try discriminate; try reflexivity; lra.
Qed.

Lemma fl_gtb_le (a b : fl) : fl_gtb a b = true -> fl_le b a.
Proof.
  destruct a as [x| | |], b as [y| | |]; simpl; try discriminate; auto.
  destruct (Rsign (x - y)) eqn:E; try discriminate.
  intros _. apply Rsign_Gt_iff in E. lra.
Qed.

Lemma fl_not_gtb_le (a b : fl) :
  fl_gtb a b = false -> a <> NaN -> b <> NaN -> fl_le a b.
Proof.
  destruct a as [x| | |], b as [y| | |]; simpl; try discriminate; auto;
    try congruence.
  intros H _ _.
  destruct (Rle_or_lt x y) as [L | G]; [exact L|].
  assert (E : Rsign (x - y) = Gt) by (apply Rsign_Gt_iff; lra).
  rewrite E in H. discriminate.
Qed.

Lemma fl_gtb_not_nan (a b : fl) : fl_gtb a b = true -> a <> NaN /\ b <> NaN.
Proof.
  destruct a, b; simpl; try discriminate; split; discriminate.
Qed.

Lemma fl_le_trans (a b c : fl) : fl_le a b -> fl_le b c -> fl_le a c.
Proof.
  destruct a, b, c; simpl; try tauto. intros. lra.
Qed.

Lemma fl_le_refl (a : fl) : a <> NaN -> fl_le a a.
Proof.
  destruct a; simpl; try tauto. intros _. lra.
Qed.

Lemma fl_le_ge0 (a b : fl) : fl_le a b -> fl_ge0 a -> fl_ge0 b.
Proof.
  destruct a, b; simpl; try tauto. intros. lra.
Qed.

Lemma sig_get_In (d : sigdict) (c : ChannelId) (v : fl) :
  sig_get d c = Ok v -> In (c, v) d.
Proof.
  induction d as [|[k x] r IH]; simpl; [discriminate|].
  destruct (String.eqb_spec k c) as [-> | Hne].
  - intros H. injection H as <-. now left.
  - intros H. right. now apply IH.
Qed.

Lemma sig_set_keys (d : sigdict) (c : ChannelId) (v x : fl) :
  sig_get d c = Ok x -> map fst (sig_set d c v) = map fst d.
Proof.
  induction d as [|[k y] r IH]; simpl; [discriminate|].
  destruct (String.eqb k c); simpl; [reflexivity|].
  intros H. now rewrite IH.
Qed.

Lemma sig_set_In (d : sigdict) (c k : ChannelId) (v x : fl) :
  In (k, x) (sig_set d c v) -> In (k, x) d \/ x = v.
Proof.
  induction d as [|[q y] r IH]; simpl.
  - intros [E | []]. injection E as _ <-. now right.
  - destruct (String.eqb q c); simpl.
    + intros [E | H]; [|auto]. injection E as _ <-. now right.
    + intros [E | H]; [auto|]. destruct (IH H); auto.
Qed.

Lemma tables_get_key (d : tables) (c : ChannelId) (t : table) :
  tables_get d c = Ok t -> In c (map fst d).
Proof.
  induction d as [|[k x] r IH]; simpl; [discriminate|].
  destruct (String.eqb_spec k c) as [-> | Hne]; [auto|].
  intros H. right. now apply IH.
Qed.

Section FindMaxInvariant.

Variable primary : table.
Variable auxiliary : tables.
Variable lt : Q.
Variable K : list ChannelId.

Lemma score_inv (p : cell) (chan : ChannelId) (n : nat)
  (st st' : HvetoWinner * sigdict) :
  best_inv auxiliary K st -> score primary auxiliary lt p chan n st = Ok st' -> best_inv auxiliary K st'.
Proof.
  destruct st as [winner sigs]. intros (Hk & Hge & v & Hv & Hm1 & Hle & Hw).
  unfold score. destruct p as [dt thr].
  destruct (tables_get auxiliary chan) as [aux|] eqn:Ea; [|discriminate].
  cbn [bind].
  set (m := fl_div (Fin (Q2R (size primary *
                              size (filter (fun e => Qle_bool thr (snr e)) aux) * dt)))
                   (Fin (Q2R lt))).
  destruct (significance n m) as [sig|] eqn:Es; [|discriminate]. cbn [bind].
  destruct (sig_get sigs chan) as [best|] eqn:Eb; [|discriminate]. cbn [bind].
  rewrite Hv. cbn [getattr bind].
  intros H. injection H as <-.
  assert (Hbest : In (chan, best) sigs) by now apply sig_get_In.
  assert (Hbge : fl_ge0 best).
  { rewrite Forall_forall in Hge. apply (Hge (chan, best) Hbest). }
  assert (Hvn : v <> NaN) by (destruct v; simpl in Hm1; congruence).
  unfold best_inv.
  split; [|split].
  - destruct (fl_gtb sig best); [|exact Hk].
    now rewrite (sig_set_keys _ _ sig Eb).
  - destruct (fl_gtb sig best) eqn:G; [|exact Hge].
    apply Forall_forall. intros [k x] Hin. simpl.
    apply sig_set_In in Hin as [Hin | ->].
    + rewrite Forall_forall in Hge. apply (Hge (k, x) Hin).
    + apply (fl_le_ge0 _ _ (fl_gtb_le _ _ G) Hbge).
  - destruct (fl_gtb sig v) eqn:Gv.
    + exists sig. split; [reflexivity|].
      pose proof (fl_gtb_le _ _ Gv) as Hvs.
      split; [exact (fl_le_trans _ _ _ Hm1 Hvs)|].
      split.
      * intros c b Hin.
        assert (Hold : In (c, b) sigs \/ b = sig).
        { destruct (fl_gtb sig best); [now apply sig_set_In in Hin | now left]. }
        destruct Hold as [Hold | ->].
        -- destruct (Hle c b Hold) as [-> | Hb]; [now left | right].
           exact (fl_le_trans _ _ _ Hb Hvs).
        -- right. apply fl_le_refl. apply (fl_gtb_not_nan _ _ Gv).
      * right. split.
        -- destruct sig as [x| | |], v as [y| | |]; simpl in *;
             try discriminate; try tauto; try reflexivity.
           destruct (Rsign (x - y)) eqn:E1; try discriminate.
           apply Rsign_Gt_iff in E1.
           assert (E2 : Rsign (x - -1) = Gt) by (apply Rsign_Gt_iff; lra).
           now rewrite E2.
        -- exists chan, thr, dt, m. repeat split; auto.
           ++ now apply (tables_get_key _ _ Ea).
           ++ exists n. exact Es.
    + exists v. split; [exact Hv|]. split; [exact Hm1|].
      split; [|exact Hw].
      intros c b Hin.
      destruct (fl_gtb sig best) eqn:G; [|now apply (Hle c)].
      apply sig_set_In in Hin as [Hin | ->]; [now apply (Hle c)|].
      right. apply fl_not_gtb_le; auto. apply (fl_gtb_not_nan _ _ G).
Qed.

Lemma for_chan_inv (p : cell) (cdict : countdict) :
  forall st st',
    best_inv auxiliary K st -> for_chan primary auxiliary lt p cdict st = Ok st' -> best_inv auxiliary K st'.
Proof.
  induction cdict as [|[chan n] r IH]; intros st st' Hinv; simpl.
  - intros H. now injection H as <-.
  - destruct (score primary auxiliary lt p chan n st) as [st1|] eqn:E; [|discriminate].
    cbn [bind]. apply IH. now apply (score_inv _ _ _ _ Hinv E).
Qed.

Lemma for_cell_inv (coincs : celldict countdict) :
  forall st st',
    best_inv auxiliary K st -> for_cell primary auxiliary lt coincs st = Ok st' -> best_inv auxiliary K st'.
Proof.
  induction coincs as [|[p cdict] r IH]; intros st st' Hinv; simpl.
  - intros H. now injection H as <-.
  - destruct (for_chan primary auxiliary lt p cdict st) as [st1|] eqn:E; [|discriminate].
    cbn [bind]. apply IH. now apply (for_chan_inv _ _ _ Hinv E).
Qed.

End FindMaxInvariant.

Lemma sigs_of_values (cs : list ChannelId) (v : fl) :
  forall c x, In (c, x) (sigs_of cs v) -> x = v.
Proof.
  unfold sigs_of.
  assert (H : forall d, (forall c x, In (c, x) d -> x = v) ->
                        forall c x, In (c, x) (fold_left (fun d c => sig_set d c v) cs d) ->
                                    x = v).
  { induction cs as [|k r IH]; intros d Hd; simpl; [exact Hd|].
    apply IH. intros c x Hin.
    apply sig_set_In in Hin as [Hin | E]; [now apply (Hd c) | exact E]. }
  apply H. intros c x [].
Qed.

(** X13.  Whenever [find_max_significance] returns: the per-channel bests
    have one entry per auxiliary key, in key order, and none of them is NaN
    or negative; the winner's significance is a number that is at least -1
    and at least every best that was raised above its initial 0; and the
    winner is either the untouched initial winner (name ['unknown'],
    significance -1) or carries a key of [auxiliary] as its name, a
    significance above -1 that [significance] returned for its [mu], and
    numbers in [snr], [window] and [mu]. *)
Theorem find_max_significance_result (primary : table) (auxiliary : tables)
  (lt : Q) (channel : ChannelId) (snrs windows : list Q)
  (winner : HvetoWinner) (sigs : sigdict)
  (Hret : find_max_significance primary auxiliary lt channel snrs windows
          = Ok (winner, sigs)) :
  map fst sigs = map fst (sigs_of (map fst auxiliary) (Fin 0)) /\
  Forall (fun kv => fl_ge0 (snd kv)) sigs /\
  exists v,
    getattr (w_significance winner) = Ok (Some v) /\
    fl_le (Fin (-1)) v /\
    (forall c b, In (c, b) sigs -> b = Fin 0 \/ fl_le b v) /\
    (winner = sentinel \/
     (fl_gtb v (Fin (-1)) = true /\
      exists chan thr dt m,
        name winner = Some (Some chan) /\ In chan (map fst auxiliary) /\
        w_snr winner = Some (Some thr) /\ window winner = Some (Some dt) /\
        mu winner = Some (Some m) /\
        exists n, significance n m = Ok v)).
Proof.
  unfold find_max_significance, vstack_tables in Hret. cbn [bind] in Hret.
  apply (@for_cell_inv primary auxiliary lt
                       (map fst (sigs_of (map fst auxiliary) (Fin 0)))) in Hret.
  - destruct Hret as (Hk & Hge & v & Hv & H1 & H2 & H3).
    split; [exact Hk|]. split; [exact Hge|].
    exists v. rewrite Hv. repeat split; auto.
  - split; [reflexivity|]. split.
    + apply Forall_forall. intros [c x] Hin. simpl.
      rewrite (sigs_of_values _ _ _ _ Hin). simpl. lra.
    + exists (Fin (-1)). split; [reflexivity|].
      split; [simpl; lra|]. split; [|now left].
      intros c b Hin. left. apply (sigs_of_values _ _ _ _ Hin).
Qed.

Lemma fl_div_pos (x y : R) : (0 < y)%R -> fl_div (Fin x) (Fin y) = Fin (x / y).
Proof. intros Hy. unfold fl_div. now rewrite (Rsign_pos Hy). Qed.

Lemma fl_gtb_lt (x y : R) : (y < x)%R -> fl_gtb (Fin x) (Fin y) = true.
Proof.
  intros H. unfold fl_gtb. rewrite (@Rsign_pos (x - y)); [reflexivity | lra].
Qed.

(** One primary event with one loud auxiliary event a quarter of a second
    away: the cell [(1, 5)] counts one coincidence, [mu] is 1/1000, and
    channel ["A"] wins with a positive significance. *)
Lemma find_max_significance_scored :
  exists winner sigs,
    find_max_significance [prim 0] [("A"%string, [auxA (1 # 4) 10])] 1000 "P"
                          [5%Q] [1%Q]
      = Ok (winner, sigs) /\
    name winner = Some (Some "A"%string) /\
    exists s, sigs = [("A"%string, Fin s)] /\ (0 < s)%R.
Proof.
  unfold find_max_significance, vstack_tables. cbn [bind map snd app concat].
  assert (Ec : find_all_coincidences [prim 0; auxA (1 # 4) 10] "P" [5%Q] [1%Q]
               = [((1, 5)%Q, [("A"%string, 1%nat)])]) by (vm_compute; reflexivity).
  rewrite Ec. cbn [for_cell for_chan]. unfold score.
  cbn [tables_get String.eqb Ascii.eqb Bool.eqb bind fst snd filter auxA snr].
  change (Qle_bool 5 10) with true. cbv iota.
  assert (Eq1 : (size [prim 0] * size [auxA (1 # 4) 10] * 1)%Q = 1%Q)
    by (vm_compute; reflexivity).
  rewrite Eq1.
  assert (E1 : Q2R 1 = 1%R) by (unfold Q2R; simpl; lra).
  assert (E2 : Q2R 1000 = 1000%R) by (unfold Q2R; simpl; lra).
  rewrite E1, E2, fl_div_pos by lra.
  assert (Hm : (0 < 1 / 1000)%R) by lra.
  rewrite (significance_pos_mu 0 Hm).
  pose proof (neg_log_tail_pos 0 Hm) as Hs.
  set (s := (- (ln (poisson_tail 1 (1 / 1000)) / ln 10))%R) in *.
  cbn [bind sigs_of fold_left sig_set sig_get String.eqb Ascii.eqb Bool.eqb
       getattr w_significance HvetoWinner_init].
  rewrite !fl_gtb_lt by lra.
  eexists. eexists. split; [reflexivity|]. split; [reflexivity|].
  exists s. split; [reflexivity | exact Hs].
Qed.

Lemma find_max_significance_result_witness :
  exists winner sigs,
    find_max_significance [prim 0] [("A"%string, [auxA (1 # 4) 10])] 1000 "P"
                          [5%Q] [1%Q]
      = Ok (winner, sigs) /\
    name winner = Some (Some "A"%string) /\
    map fst sigs = ["A"%string] /\
    exists v, getattr (w_significance winner) = Ok (Some v) /\
              fl_le (Fin (-1)) v /\
              forall c b, In (c, b) sigs -> b = Fin 0 \/ fl_le b v.
Proof.
  destruct find_max_significance_scored as (winner & sigs & H & Hn & _).
  exists winner, sigs. split; [exact H|]. split; [exact Hn|].
  destruct (@find_max_significance_result _ _ _ _ _ _ winner sigs H)
    as (Hk & _ & v & Hv & Hle & Hb & _).
  split; [exact Hk|]. exists v. split; [exact Hv|]. split; [exact Hle | exact Hb].
Defined.

(** ** [veto], applied twice *)

Lemma filter_all (A : Type) (p : A -> bool) (l : list A) :
  (forall x, In x l -> p x = true) -> filter p l = l.
Proof.
  induction l as [|x r IH]; intros H; simpl; [reflexivity|].
  rewrite (H x (or_introl eq_refl)). f_equal. apply IH.
  intros y Hy. apply H. now right.
Qed.

Lemma filter_none (A : Type) (p : A -> bool) (l : list A) :
  (forall x, In x l -> p x = false) -> filter p l = [].
Proof.
  induction l as [|x r IH]; intros H; simpl; [reflexivity|].
  rewrite (H x (or_introl eq_refl)). apply IH.
  intros y Hy. apply H. now right.
Qed.

Lemma veto_Ok_nonempty (tbl : table) (segs : segmentlist) (res : table * table) :
  veto tbl segs = Ok res -> coalesce segs <> [].
Proof.
  unfold veto. destruct (coalesce segs); [discriminate | discriminate].
Qed.

(** X16.  Vetoing twice changes nothing.  When [veto] returns for a table
    and a list of segments, vetoing the kept part again with the same
    segments removes nothing and keeps the same events, and vetoing the
    removed part keeps nothing and removes the same events. *)
Theorem veto_twice (tbl : table) (segs : segmentlist) (kept removed : table)
  (Hwf : Forall wf_seg segs) (H : veto tbl segs = Ok (kept, removed)) :
  (exists kept', veto kept segs = Ok (kept', []) /\ Permutation kept' kept) /\
  (exists removed', veto removed segs = Ok ([], removed') /\
                    Permutation removed' removed).
Proof.
  pose proof (veto_Ok_nonempty _ _ H) as Hne.
  rewrite (veto_nonempty tbl Hwf Hne) in H. injection H as <- <-.
  assert (Hin : forall l e, In e (sort_by_time l) -> In e l).
  { intros l e. apply Permutation_in, sort_by_time_perm. }
  split.
  - exists (sort_by_time (kept_of segs tbl)).
    split; [|apply sort_by_time_perm].
    rewrite (veto_nonempty (kept_of segs tbl) Hwf Hne). f_equal.
    unfold kept_of at 1, removed_of. f_equal.
    + apply filter_all. intros e He. apply Hin in He.
      unfold kept_of in He. now apply filter_In in He.
    + apply filter_none. intros e He. apply Hin in He.
      unfold kept_of in He. apply filter_In in He as [_ He].
      now apply negb_true_iff in He.
  - exists (sort_by_time (removed_of segs tbl)).
    split; [|apply sort_by_time_perm].
    rewrite (veto_nonempty (removed_of segs tbl) Hwf Hne). f_equal.
    unfold kept_of, removed_of at 2. f_equal.
    + apply filter_none. intros e He. apply Hin in He.
      unfold removed_of in He. apply filter_In in He as [_ He].
      now rewrite He.
    + apply filter_all. intros e He. apply Hin in He.
      unfold removed_of in He. now apply filter_In in He.
Qed.

Lemma veto_twice_witness :
  Forall wf_seg [(1, 3)]%Q /\
  veto [ev0 9; ev0 2] [(1, 3)]%Q = Ok ([ev0 9], [ev0 2]) /\
  exists kept', veto [ev0 9] [(1, 3)]%Q = Ok (kept', []) /\
                Permutation kept' [ev0 9].
Proof.
  assert (Hwf : Forall wf_seg [(1, 3)]%Q).
  { repeat constructor; unfold wf_seg; simpl; lra. }
  assert (H : veto [ev0 9; ev0 2] [(1, 3)]%Q = Ok ([ev0 9], [ev0 2]))
    by reflexivity.
  split; [exact Hwf|]. split; [exact H|].
  exact (proj1 (@veto_twice [ev0 9; ev0 2] [(1, 3)]%Q [ev0 9] [ev0 2] Hwf H)).
Defined.

(** ** The jobs [weekly_hveto.main] schedules *)

Lemma main_loop_spec (start_dt duration_dt stride_dt njobs : Z) :
  (1 <= stride_dt)%Z ->
  forall fuel next_dt current_job,
    (1 <= Z.of_nat fuel)%Z ->
    (next_dt - start_dt + 2 <= Z.of_nat fuel)%Z ->
    exists jobs,
      main_loop fuel start_dt next_dt duration_dt stride_dt current_job njobs
        = Some jobs /\
      Z.of_nat (length jobs) =
        (if (next_dt <? start_dt)%Z then 0
         else (next_dt - start_dt) / stride_dt + 1)%Z /\
      forall k, k < length jobs ->
                nth_error jobs k =
                Some (Job (current_job + Z.of_nat k) njobs
                          (next_dt - Z.of_nat k * stride_dt - duration_dt)
                          (next_dt - Z.of_nat k * stride_dt)).
Proof.
  intros Hs. induction fuel as [|fuel IH]; intros next_dt current_job H1 H2;
    [simpl in H1; lia|].
  cbn [main_loop].
  destruct (start_dt <=? next_dt)%Z eqn:C.
  - apply Z.leb_le in C.
    destruct (IH (next_dt - stride_dt)%Z (current_job + 1)%Z)
      as (jobs & E & Hl & Hk); [lia | lia|].
    rewrite E. cbn [option_map].
    eexists. split; [reflexivity|]. split.
    + cbn [length].
      destruct (next_dt <? start_dt)%Z eqn:C1; [apply Z.ltb_lt in C1; lia|].
      destruct (next_dt - stride_dt <? start_dt)%Z eqn:C2.
      * apply Z.ltb_lt in C2. rewrite Z.div_small; lia.
      * apply Z.ltb_ge in C2.
        replace (next_dt - start_dt)%Z
          with (next_dt - stride_dt - start_dt + 1 * stride_dt)%Z by lia.
        rewrite Z.div_add by lia. lia.
    + intros [|k] Hlt; cbn [nth_error].
      * f_equal. f_equal; lia.
      * cbn [length] in Hlt. rewrite Hk by lia. f_equal. f_equal; lia.
  - apply Z.leb_gt in C. exists []. split; [reflexivity|]. split.
    + apply Z.ltb_lt in C. now rewrite C.
    + intros k Hk. simpl in Hk. lia.
Qed.

(** X18.  Without a configuration file [main] raises [ValueError] before
    it schedules anything.  With one, a stride of at least one day and a
    start day not after the end day, it schedules one job more than the
    [njobs] it prints in every job name and reports at the end: the jobs
    are numbered [1 .. njobs + 1] "of [njobs]", the first ends on the end
    day, each next one a stride earlier, none before the start day, and
    each covers [duration] days.  The loop ends within [end - start + 2]
    tests. *)
Theorem main_schedules_one_more_job (fuel : nat) (config : string)
  (start_day end_day duration stride : Z)
  (Hstride : (1 <= stride)%Z) (Horder : (start_day <= end_day)%Z)
  (Hfuel : (end_day - start_day + 2 <= Z.of_nat fuel)%Z) :
  main fuel None start_day end_day duration stride = Raise ValueError /\
  exists jobs,
    main fuel (Some config) start_day end_day duration stride =
      Ok (Some (Z.quot (end_day - start_day) stride, jobs)) /\
    Z.of_nat (length jobs) = (Z.quot (end_day - start_day) stride + 1)%Z /\
    forall k, k < length jobs ->
              nth_error jobs k =
              Some (Job (Z.of_nat k + 1) (Z.quot (end_day - start_day) stride)
                        (end_day - Z.of_nat k * stride - duration)
                        (end_day - Z.of_nat k * stride)) /\
              (start_day <= end_day - Z.of_nat k * stride)%Z.
Proof.
  split; [reflexivity|].
  destruct (@main_loop_spec start_day duration stride
              (Z.quot (end_day - start_day) stride) Hstride fuel end_day 1%Z)
    as (jobs & E & Hl & Hk); [lia | lia|].
  assert (Hq : Z.quot (end_day - start_day) stride
               = ((end_day - start_day) / stride)%Z).
  { apply Z.quot_div_nonneg; lia. }
  destruct (end_day <? start_day)%Z eqn:C; [apply Z.ltb_lt in C; lia|].
  exists jobs. split; [|split].
  - unfold main. cbn [bind].
    destruct (stride =? 0)%Z eqn:C0; [apply Z.eqb_eq in C0; lia|].
    cbn [bind]. now rewrite E.
  - now rewrite Hq.
  - intros k Hlt. split.
    + rewrite (Hk k Hlt). f_equal. f_equal; lia.
    + assert (Hb : (Z.of_nat k < (end_day - start_day) / stride + 1)%Z) by lia.
      assert (Hm : (stride * ((end_day - start_day) / stride)
                    <= end_day - start_day)%Z).
      { apply Z.mul_div_le. lia. }
      nia.
Qed.

Lemma main_schedules_one_more_job_witness :
  (1 <= 7)%Z /\ (1 <= 29)%Z /\ (29 - 1 + 2 <= Z.of_nat 30)%Z /\
  exists jobs,
    main 30 (Some "weekly.ini"%string) 1 29 7 7 = Ok (Some (4%Z, jobs)) /\
    length jobs = 5.
Proof.
  assert (H1 : (1 <= 7)%Z) by lia.
  assert (H2 : (1 <= 29)%Z) by lia.
  assert (H3 : (29 - 1 + 2 <= Z.of_nat 30)%Z) by (simpl; lia).
  split; [exact H1|]. split; [exact H2|]. split; [exact H3|].
  destruct (@main_schedules_one_more_job 30 "weekly.ini"%string 1 29 7 7 H1 H2 H3)
    as (_ & jobs & E & Hl & _).
  exists jobs. split; [exact E|].
  change (Z.quot (29 - 1) 7) with 4%Z in Hl. lia.
Defined.
